(** * lerna-changelog: the git reader ([src/git.ts])

    A shallow embedding of [src/git.ts] and the properties of its
    commit-history reader, tag enumeration and changed-paths resolver.

    JavaScript strings are sequences of UTF-16 code units; a code unit is
    modelled as an [N].  The external [git] process is a step function on an
    abstract world; every function of [git.ts] runs in a small monad that
    threads the world, stops at the first thrown error and records each
    process invocation together with its outcome. *)

From Stdlib Require Import List Arith NArith Lia String Ascii Bool Permutation.
Import ListNotations.

Local Open Scope N_scope.
Local Open Scope list_scope.

(** ** The JavaScript runtime used by [git.ts] *)

Module JS.

(** A UTF-16 code unit and a JavaScript string. *)
Definition char : Type := N.
Definition jsstring : Type := list char.

(** A source literal, written as a Rocq string of ASCII characters. *)
Fixpoint lit (s : string) : jsstring :=
  match s with
  | EmptyString => []
  | String a s' => N_of_ascii a :: lit s'
  end.

(** [a === b] on strings. *)
Fixpoint str_eqb (a b : jsstring) : bool :=
  match a, b with
  | [], [] => true
  | x :: a', y :: b' => (x =? y) && str_eqb a' b'
  | _, _ => false
  end.

(** [Boolean(s)] for a string: only the empty string is falsy. *)
Definition Boolean (s : jsstring) : bool :=
  match s with
  | [] => false
  | _ :: _ => true
  end.

(** [xs.filter(Boolean)] on an array of [T | null], at the type TypeScript
    gives the result once the [null]s are gone. *)
Fixpoint filterObj {T : Type} (xs : list (option T)) : list T :=
  match xs with
  | [] => []
  | Some x :: xs' => x :: filterObj xs'
  | None :: xs' => filterObj xs'
  end.

(** [arr.includes(s)] on an array of strings. *)
Definition includes (arr : list jsstring) (s : jsstring) : bool :=
  existsb (fun t => str_eqb t s) arr.

(** [s.split(sep)] for a one-code-unit separator.  The result is never
    empty: the empty string splits into one empty string. *)
Fixpoint split (sep : char) (s : jsstring) : list jsstring :=
  match s with
  | [] => [[]]
  | c :: s' =>
      if c =? sep then [] :: split sep s'
      else match split sep s' with
           | l :: ls => (c :: l) :: ls
           | [] => [[c]]
           end
  end.

(** [lines.join(sep)], the inverse of [split]. *)
Fixpoint join (sep : char) (ls : list jsstring) : jsstring :=
  match ls with
  | [] => []
  | [l] => l
  | l :: ls' => l ++ sep :: join sep ls'
  end.

Definition LF : char := 10.

(** *** Regular expressions

    The fragment of ECMAScript regular expressions that [git.ts] uses:
    a sequence of literal texts and of capturing groups around a greedy
    star or plus of the dot ([CapStar], [CapPlus]), without flags. *)

(** [LineTerminator]: the code units that [.] does not match. *)
Definition isLineTerminator (c : char) : bool :=
  (c =? 10) || (c =? 13) || (c =? 8232) || (c =? 8233).

Definition dot (c : char) : bool := negb (isLineTerminator c).

Inductive atom : Type :=
| Lit (text : jsstring)
| CapStar
| CapPlus.

Definition regex : Type := list atom.

(** [strip p s] is the rest of [s] after the literal [p], if [s] starts
    with it. *)
Fixpoint strip (p s : jsstring) : option jsstring :=
  match p, s with
  | [], _ => Some s
  | x :: p', y :: s' => if x =? y then strip p' s' else None
  | _ :: _, [] => None
  end.

(** The greedy quantifier [*] over [.]: take one more code unit when the
    rest of the pattern (the continuation [k]) can still match after it,
    and give it back otherwise. *)
Fixpoint star {X : Type} (k : jsstring -> option X) (s : jsstring)
  : option (jsstring * X) :=
  let stop := option_map (fun x => ([], x)) (k s) in
  match s with
  | c :: s' =>
      if dot c then
        match star k s' with
        | Some (g, x) => Some (c :: g, x)
        | None => stop
        end
      else stop
  | [] => stop
  end.

(** The greedy quantifier [+]: one [.], then [*]. *)
Definition plus {X : Type} (k : jsstring -> option X) (s : jsstring)
  : option (jsstring * X) :=
  match s with
  | c :: s' =>
      if dot c then
        match star k s' with
        | Some (g, x) => Some (c :: g, x)
        | None => None
        end
      else None
  | [] => None
  end.

(** A backtracking match of [re] at the start of [s]: the captures and the
    text left after the match. *)
Fixpoint matchHere (re : regex) (s : jsstring)
  : option (list jsstring * jsstring) :=
  match re with
  | [] => Some ([], s)
  | Lit p :: re' =>
      match strip p s with
      | Some s' => matchHere re' s'
      | None => None
      end
  | CapStar :: re' =>
      match star (matchHere re') s with
      | Some (g, (caps, rest)) => Some (g :: caps, rest)
      | None => None
      end
  | CapPlus :: re' =>
      match plus (matchHere re') s with
      | Some (g, (caps, rest)) => Some (g :: caps, rest)
      | None => None
      end
  end.

(** [s.match(re)] for a regular expression without the [g] flag: the
    leftmost match, trying every start index from 0 to the length.  The
    result is [null] or the array of the matched text (what [s] loses from
    the match index to the text left over) followed by the captures. *)
Fixpoint String_match (s : jsstring) (re : regex)
  : option (list jsstring) :=
  match matchHere re s with
  | Some (caps, rest) =>
      Some (firstn (List.length s - List.length rest)%nat s :: caps)
  | None =>
      match s with
      | [] => None
      | _ :: s' => String_match s' re
      end
  end.

End JS.

Import JS.


(** ** [src/git.ts] *)

Module Git.

(** [interface CommitListItem] *)
Record CommitListItem : Type := mkItem {
  sha : jsstring;
  refName : jsstring;
  summary : jsstring;
  date : jsstring;
}.

(** The literal texts of the regular expression of [parseLogMessage]. *)
Definition hashOpen : jsstring := Eval cbv in lit "hash<".
Definition refOpen : jsstring := Eval cbv in lit "> ref<".
Definition messageOpen : jsstring := Eval cbv in lit "> message<".
Definition dateOpen : jsstring := Eval cbv in lit "> date<".
Definition close : jsstring := Eval cbv in lit ">".

(** The regular expression literal of [parseLogMessage]; it has no anchors
    and no flags. *)
Definition logPattern : regex :=
  [Lit hashOpen; CapPlus; Lit refOpen; CapStar; Lit messageOpen; CapStar;
   Lit dateOpen; CapStar; Lit close].

(** [function parseLogMessage(commit)].  An index past the end of [parts]
    reads as the empty string here ([undefined] in JavaScript); a match
    always has the five entries that are read. *)
Definition parseLogMessage (commit : jsstring) : option CommitListItem :=
  let parts :=
    match String_match commit logPattern with
    | Some a => a
    | None => []
    end in
  if Nat.eqb (List.length parts) 0 then None
  else Some {| sha := nth 1 parts [];
               refName := nth 2 parts [];
               summary := nth 3 parts [];
               date := nth 4 parts [] |}.

(** The chain [.split(LF).filter(Boolean).map(parseLogMessage).filter(Boolean)]
    that [listCommits] applies to the output of the range query. *)
Definition parseLog (stdout : jsstring) : list CommitListItem :=
  filterObj (map parseLogMessage (filter Boolean (split LF stdout))).

(** *** The external process and the monad of [git.ts] *)

Section Process.

(** What the process can observe and change (the repository, its remote),
    the error [execa] throws, and one run of a command line. *)
Variable World : Type.
Variable Error : Type.
Variable spawn : list jsstring -> World -> (Error + jsstring) * World.

(** One process invocation: its command line and how it ended. *)
Definition Event : Type := (list jsstring * (Error + jsstring))%type.

Record Run (A : Type) : Type := mkRun {
  outcome : Error + A;
  world : World;
  trace : list Event;
}.
Arguments mkRun {A}.
Arguments outcome {A}.
Arguments world {A}.
Arguments trace {A}.

Definition M (A : Type) : Type := World -> Run A.

Definition ret {A : Type} (a : A) : M A :=
  fun w => mkRun (inr a) w [].

Definition bind {A B : Type} (m : M A) (f : A -> M B) : M B :=
  fun w =>
    let r := m w in
    match outcome r with
    | inl e => mkRun (inl e) (world r) (trace r)
    | inr a =>
        let r' := f a (world r) in
        mkRun (outcome r') (world r') (trace r ++ trace r')
    end.

Notation "x <- m ;; k" := (bind m (fun x => k))
  (at level 61, m at next level, right associativity).

(** [execa.sync(file, args).stdout]; [await execa(file, args)] behaves
    the same in this sequential model. *)
Definition execa_sync (file : jsstring) (args : list jsstring)
  : M jsstring :=
  fun w =>
    let r := spawn (file :: args) w in
    mkRun (fst r) (snd r) [(file :: args, fst r)].

Definition git : jsstring := Eval cbv in lit "git".

(** The argument lists that [git.ts] builds. *)
Definition showArgs (sha : jsstring) : list jsstring :=
  [lit "show"; lit "-m"; lit "--name-only"; lit "--pretty=format:";
   lit "--first-parent"; sha].

Definition tagArgs : list jsstring := [lit "tag"].

Definition describeArgs : list jsstring :=
  [lit "describe"; lit "--abbrev=0"; lit "--tags"].

Definition fetchArgs : list jsstring := [lit "fetch"].

Definition branchArgs (branch : jsstring) : list jsstring :=
  [lit "log"; lit "--oneline"; lit "--pretty=%s";
   lit "origin/master..origin/" ++ branch].

Definition rangeArgs (from to : jsstring) : list jsstring :=
  [lit "log"; lit "--oneline";
   lit "--pretty=hash<%h> ref<%D> message<%s> date<%cd>";
   lit "--date=short"; from ++ lit ".." ++ to].

(** [async function changedPaths(sha)] *)
Definition changedPaths (sha : jsstring) : M (list jsstring) :=
  stdout <- execa_sync git (showArgs sha) ;;
  ret (split LF stdout).

(** [function listTagNames()] *)
Definition listTagNames : M (list jsstring) :=
  stdout <- execa_sync git tagArgs ;;
  ret (filter Boolean (split LF stdout)).

(** [function lastTag()] *)
Definition lastTag : M jsstring :=
  execa_sync git describeArgs.

(** The [duplicateCheckBranches.forEach] loop of [listCommits]; the array
    [targetCommits] that its callback appends to is passed along.
    [Array.prototype.push.apply(targetCommits, commits)] is the append of
    the two arrays; the [RangeError] that an engine raises when [commits]
    is longer than its limit on the arguments of one call is not part of
    this model, whose lists have no such limit. *)
Fixpoint forEachBranch (branches : list jsstring)
  (targetCommits : list jsstring) : M (list jsstring) :=
  match branches with
  | [] => ret targetCommits
  | branch :: branches' =>
      stdout <- execa_sync git (branchArgs branch) ;;
      let commits := filter Boolean (split LF stdout) in
      forEachBranch branches' (targetCommits ++ commits)
  end.

(** [function listCommits(from, to = "", duplicateCheckBranches = [])] *)
Definition listCommits (from to : jsstring)
  (duplicateCheckBranches : list jsstring) : M (list CommitListItem) :=
  _ <- execa_sync git fetchArgs ;;
  targetCommits <- forEachBranch duplicateCheckBranches [] ;;
  stdout <- execa_sync git (rangeArgs from to) ;;
  ret (filter
         (fun item => negb (includes targetCommits (summary item)))
         (parseLog stdout)).

End Process.

Arguments mkRun {World Error A}.
Arguments outcome {World Error A}.
Arguments world {World Error A}.
Arguments trace {World Error A}.
Arguments ret {World Error A}.
Arguments bind {World Error A B}.
Arguments execa_sync {World Error}.
Arguments changedPaths {World Error}.
Arguments listTagNames {World Error}.
Arguments lastTag {World Error}.
Arguments forEachBranch {World Error}.
Arguments listCommits {World Error}.

End Git.

Import Git.

(** ** What the properties are stated with *)

Module Spec.

(** A text that [.] matches throughout. *)
Definition dots (g : jsstring) : bool := forallb dot g.

(** The texts a regular expression matches, with their captures: the
    declarative reading of the fragment, without search order. *)
Inductive Matches : regex -> jsstring -> list jsstring -> Prop :=
| Matches_nil : Matches [] [] []
| Matches_lit p re t caps :
    Matches re t caps -> Matches (Lit p :: re) (p ++ t) caps
| Matches_star g re t caps :
    dots g = true -> Matches re t caps ->
    Matches (CapStar :: re) (g ++ t) (g :: caps)
| Matches_plus g re t caps :
    dots g = true -> Boolean g = true -> Matches re t caps ->
    Matches (CapPlus :: re) (g ++ t) (g :: caps).

(** The structured line that [git log] prints for a commit with the
    format of [listCommits]: the four fields between their markers. *)
Definition serialize (item : CommitListItem) : jsstring :=
  hashOpen ++ sha item ++ refOpen ++ refName item ++ messageOpen
    ++ summary item ++ dateOpen ++ date item ++ close.

(** Field values the format can carry: no line terminator in any field
    and a hash that is not empty. *)
Definition fieldsOk (item : CommitListItem) : bool :=
  Boolean (sha item) && dots (sha item) && dots (refName item)
    && dots (summary item) && dots (date item).

(** The code units that delimit a field: [<] opens it, [>] closes it. *)
Definition LT : char := 60.
Definition GT : char := 62.

Definition occurs (c : char) (f : jsstring) : bool := existsb (N.eqb c) f.

(** No field value contains the code unit [c]. *)
Definition freeOf (c : char) (item : CommitListItem) : bool :=
  negb (occurs c (sha item)) && negb (occurs c (refName item))
    && negb (occurs c (summary item)) && negb (occurs c (date item)).

(** No field value contains a field delimiter. *)
Definition delimiterFree (item : CommitListItem) : bool :=
  freeOf LT item && freeOf GT item.

(** The structured format occurs in a line: somewhere in the line stand
    the four markers in their order, around a hash that is not empty and
    fields without line terminator; any text may precede and follow. *)
Definition formatOccurs (line : jsstring) : Prop :=
  exists pre item post,
    line = pre ++ serialize item ++ post /\ fieldsOk item = true.

(** A line that is the structured format from its first to its last
    code unit. *)
Definition conformsEntirely (line : jsstring) : Prop :=
  exists item, line = serialize item /\ fieldsOk item = true.

(** [Selects P xs ys]: [ys] is [xs] without the elements that fail [P],
    in the order of [xs]. *)
Inductive Selects {A : Type} (P : A -> Prop) : list A -> list A -> Prop :=
| Selects_nil : Selects P [] []
| Selects_keep x xs ys :
    P x -> Selects P xs ys -> Selects P (x :: xs) (x :: ys)
| Selects_drop x xs ys :
    ~ P x -> Selects P xs ys -> Selects P (x :: xs) ys.

Definition nonBlank (l : jsstring) : Prop := l <> [].

(** The non-blank lines of an output: [.split(LF).filter(Boolean)]. *)
Definition linesOf (stdout : jsstring) : list jsstring :=
  filter Boolean (split LF stdout).

(** A well-formed structured line, in the words of the specification:
    the line is the four fields between their markers from its first to its
    last code unit, the hash is not empty, and no field value contains a
    field delimiter; the field values are arbitrary otherwise. *)
Definition wellFormed (line : jsstring) : Prop :=
  exists item,
    line = serialize item
    /\ Boolean (sha item) = true /\ delimiterFree item = true.

(** The lines of an output: the texts without line feed whose join with
    line feeds is the output. *)
Definition Lines (out : jsstring) (lines : list jsstring) : Prop :=
  join LF lines = out /\ lines <> [] /\ Forall (fun l => ~ In LF l) lines.

Definition lineOf (l out : jsstring) : Prop :=
  exists lines, Lines out lines /\ In l lines.

(** The summaries of the duplicate-check ranges of one invocation of
    [listCommits], read off its trace: every line that a query
    [origin/master..origin/<branch>] of a listed branch printed. *)
Definition branchSummary {Error : Type} (tr : list (Event Error))
  (branches : list jsstring) (s : jsstring) : Prop :=
  exists branch stdout,
    In branch branches
    /\ In (git :: branchArgs branch, inr stdout) tr
    /\ lineOf s stdout.

(** [readsFrom line item]: the record is read from the line.  Its four
    values stand between the markers somewhere in the line, the hash is not
    empty and no value holds a line terminator; and when the line is a
    structured line from end to end whose fields hold no delimiter, the
    record has the fields of the line. *)
Definition readsFrom (line : jsstring) (item : CommitListItem) : Prop :=
  (exists pre post, line = pre ++ serialize item ++ post)
  /\ fieldsOk item = true
  /\ forall own,
       line = serialize own -> delimiterFree own = true -> item = own.

(** The records of the well-formed lines, as the specification words it:
    one record for each well-formed line, in the order of the lines, with
    the four values of the line, and nothing else. *)
Definition readsWellFormed (lines : list jsstring)
  (records : list CommitListItem) : Prop :=
  exists kept,
    Selects wellFormed lines kept
    /\ Forall2 (fun line item => line = serialize item) kept records.

End Spec.

Import Spec.

(** ** A scripted repository

    A read-only [git] whose answers are looked up in a table of command
    lines; a command line that is not in the table fails. *)

Module Scripted.

Definition script : Type := list (list jsstring * jsstring).

Fixpoint argv_eqb (a b : list jsstring) : bool :=
  match a, b with
  | [], [] => true
  | x :: a', y :: b' => str_eqb x y && argv_eqb a' b'
  | _, _ => false
  end.

Fixpoint lookup (argv : list jsstring) (t : script) : option jsstring :=
  match t with
  | [] => None
  | (k, v) :: t' => if argv_eqb k argv then Some v else lookup argv t'
  end.

Definition spawn (t : script) (argv : list jsstring) (w : unit)
  : (list jsstring + jsstring) * unit :=
  match lookup argv t with
  | Some stdout => (inr stdout, w)
  | None => (inl argv, w)
  end.

(** A repository with one release branch that carries a backport. *)
Definition v1 : jsstring := Eval cbv in lit "v1.0.0".
Definition v2 : jsstring := Eval cbv in lit "v1.1.0".
Definition release : jsstring := Eval cbv in lit "release-1.x".
Definition hotfix : jsstring := Eval cbv in lit "hotfix".

Definition rangeOut : jsstring :=
  Eval cbv in
    lit "hash<abc123> ref<tag: v1.1.0> message<Fix bug> date<2024-01-15>"
    ++ [LF] ++ lit "not a commit line"
    ++ [LF]
    ++ lit "hash<77aa01> ref<> message<Backport: fix bug> date<2024-01-12>"
    ++ [LF] ++ [LF]
    ++ lit "hash<5e0f3c> ref<> message<Add docs> date<2024-01-10>".

Definition tagOut : jsstring :=
  Eval cbv in lit "v1.0.0" ++ [LF] ++ lit "v1.1.0".
Definition releaseOut : jsstring := Eval cbv in lit "Backport: fix bug".
Definition hotfixOut : jsstring :=
  Eval cbv in lit "Add docs" ++ [LF] ++ lit "Hot".

Definition repo : script :=
  [ (git :: fetchArgs, []);
    (git :: tagArgs, tagOut);
    (git :: branchArgs release, releaseOut);
    (git :: branchArgs hotfix, hotfixOut);
    (git :: rangeArgs v1 v2, rangeOut);
    (git :: rangeArgs v2 v2, []);
    (git :: showArgs (lit "abc123"), []) ].

(** A repository whose log carries text around the structured format. *)
Definition noisyOut : jsstring :=
  Eval cbv in lit "* hash<abc123> ref<> message<Fix bug> date<2024-01-15> (HEAD)".

Definition noisy : script :=
  [ (git :: fetchArgs, []); (git :: rangeArgs v1 v2, noisyOut) ].

(** A repository with a commit whose subject quotes a log line after a
    line separator (U+2028), which [git log] prints as it is. *)
Definition quotedOut : jsstring :=
  Eval cbv in
    lit "hash<9f1c2d> ref<> message<Quote" ++ [8232]
    ++ lit "hash<abc123> ref<> message<Fix bug> date<2024-02-01>".

Definition quoted : script :=
  [ (git :: fetchArgs, []); (git :: rangeArgs v1 v2, quotedOut) ].

Definition quotedFix : CommitListItem :=
  Eval cbv in mkItem (lit "abc123") [] (lit "Fix bug") (lit "2024-02-01").

(** The records of the repositories. *)
Definition fixBug : CommitListItem :=
  Eval cbv in
    mkItem (lit "abc123") (lit "tag: v1.1.0") (lit "Fix bug")
      (lit "2024-01-15").
Definition addDocs : CommitListItem :=
  Eval cbv in mkItem (lit "5e0f3c") [] (lit "Add docs") (lit "2024-01-10").
Definition noisyFix : CommitListItem :=
  Eval cbv in mkItem (lit "abc123") [] (lit "Fix bug") (lit "2024-01-15").

(** The line and the record of the first example scenario. *)
Definition exampleLine : jsstring :=
  Eval cbv in
    lit "hash<abc123> ref<tag: v1.2.0> message<Fix bug> date<2024-01-15>".
Definition exampleItem : CommitListItem :=
  Eval cbv in
    mkItem (lit "abc123") (lit "tag: v1.2.0") (lit "Fix bug")
      (lit "2024-01-15").

End Scripted.

(** ** The order in which the matcher prefers readings *)

Module Reading.

(** The four captures of a record, in the order of the groups. *)
Definition fields (item : CommitListItem) : list jsstring :=
  [sha item; refName item; summary item; date item].

(** [prefers a b]: the captures [b] are preferred to [a] by greedy groups
    tried from left to right: at the first group where they differ, [b] is
    the longer one. *)
Fixpoint prefers (a b : list jsstring) : Prop :=
  match a, b with
  | [], [] => True
  | x :: a', y :: b' =>
      (List.length x < List.length y)%nat \/ (x = y /\ prefers a' b')
  | _, _ => False
  end.

(** A process of a trace that ended normally. *)
Definition succeeded {Error : Type} (ev : Event Error) : Prop :=
  exists stdout, snd ev = inr stdout.

(** The number of occurrences of a code unit. *)
Definition count (c : char) (s : jsstring) : nat :=
  List.length (filter (N.eqb c) s).

End Reading.

Import Reading.

(** ** More scripted repositories and lines *)

Module Cases.

(** A repository that cannot reach its remote: [git fetch] fails, the log
    queries would answer. *)
Definition offline : Scripted.script :=
  [ (git :: rangeArgs Scripted.v1 Scripted.v2, Scripted.rangeOut);
    (git :: branchArgs Scripted.release, Scripted.releaseOut) ].

(** A line whose subject holds markers of its own, after some text. *)
Definition markedLine : jsstring :=
  Eval cbv in
    lit "* hash<abc123> ref<> message<Fix> date<x> date<2024-01-15> (HEAD)".
Definition markedItem : CommitListItem :=
  Eval cbv in
    mkItem (lit "abc123") [] (lit "Fix> date<x") (lit "2024-01-15").
Definition markedShort : CommitListItem :=
  Eval cbv in
    mkItem (lit "abc123") [] (lit "Fix") (lit "x").

(** A commit whose subject holds a carriage return. *)
Definition returnItem : CommitListItem :=
  Eval cbv in
    mkItem (lit "abc123") [] (lit "Fix" ++ [13] ++ lit "bug")
      (lit "2024-01-15").

(** A range output with a commit that has no subject. *)
Definition blankSubjectOut : jsstring :=
  Eval cbv in lit "hash<abc123> ref<> message<> date<2024-01-15>".
Definition blankSubject : CommitListItem :=
  Eval cbv in mkItem (lit "abc123") [] [] (lit "2024-01-15").
Definition blankRepo : Scripted.script :=
  [ (git :: fetchArgs, []);
    (git :: branchArgs Scripted.release, [LF]);
    (git :: rangeArgs Scripted.v1 Scripted.v2, blankSubjectOut) ].

(** A tag list with a blank line between two names. *)
Definition gappedTagOut : jsstring :=
  Eval cbv in lit "v1.0.0" ++ [LF] ++ [LF] ++ lit "v1.1.0".
Definition gappedTags : Scripted.script :=
  [ (git :: tagArgs, gappedTagOut) ].

(** The output of [git show] for a commit that touched two files. *)
Definition showOut : jsstring :=
  Eval cbv in lit "src/git.ts" ++ [LF] ++ lit "README.md".
Definition showRepo : Scripted.script :=
  [ (git :: showArgs (lit "abc123"), showOut) ].

End Cases.

(** ** Lines that the parser loses *)

Module Lost.

(** A commit whose subject holds a line separator (U+2028), and its line. *)
Definition lostItem : CommitListItem :=
  Eval cbv in
    mkItem (lit "5e0f3c") [] (lit "Add" ++ [8232] ++ lit "docs")
      (lit "2024-01-10").
Definition lostLine : jsstring :=
  Eval cbv in
    lit "hash<5e0f3c> ref<> message<Add" ++ [8232]
    ++ lit "docs> date<2024-01-10>".

(** A range output of two lines: text around the structured format, and
    the well-formed line of [lostItem]. *)
Definition mixedOut : jsstring :=
  Eval cbv in Scripted.noisyOut ++ [LF] ++ lostLine.
Definition mixed : Scripted.script :=
  [ (git :: fetchArgs, []);
    (git :: rangeArgs Scripted.v1 Scripted.v2, mixedOut) ].


End Lost.

(** ** More of the JavaScript runtime: JSON values and character classes *)

Module JSValue.

#[local] Set Warnings "-register-all".

(** A value that [JSON.parse] returns.  The numbers of JavaScript are
    IEEE doubles; they are kept abstract in [Num]. *)
Inductive json (Num : Type) : Type :=
| JNull
| JBool (b : bool)
| JNum (n : Num)
| JStr (s : jsstring)
| JArr (xs : list (json Num))
| JObj (props : list (jsstring * json Num)).

Arguments JNull {Num}.
Arguments JBool {Num}.
Arguments JNum {Num}.
Arguments JStr {Num}.
Arguments JArr {Num}.
Arguments JObj {Num}.

(** A JSON value or [undefined]. *)
Definition value (Num : Type) : Type := option (json Num).

(** The own property [k] of an object whose properties are listed with the
    first binding of a key in force. *)
Fixpoint own {Num : Type} (k : jsstring) (props : list (jsstring * json Num))
  : value Num :=
  match props with
  | [] => None
  | (k', v) :: props' => if str_eqb k' k then Some v else own k props'
  end.

(** [[a, b].join(sep)] on strings. *)
Fixpoint joinWith (sep : jsstring) (ls : list jsstring) : jsstring :=
  match ls with
  | [] => []
  | [l] => l
  | l :: ls' => l ++ sep ++ joinWith sep ls'
  end.

(** The fragment of regular expressions of [findRepoFromPkg]: literal
    texts, one code unit of a class, a greedy [+] over the complement of a
    class, the capturing group 1 (its opening and closing parenthesis) and an
    optional literal text in a non-capturing group. *)
Inductive piece : Type :=
| PLit (text : jsstring)
| POneOf (class : jsstring)
| PManyNot (class : jsstring)
| POpen
| PClose
| POpt (text : jsstring).

Definition inClass (c : char) (class : jsstring) : bool :=
  existsb (N.eqb c) class.

(** Greedy [*] over the complement of a class. *)
Fixpoint starNot {X : Type} (class : jsstring) (k : jsstring -> option X)
  (s : jsstring) : option X :=
  match s with
  | c :: s' =>
      if inClass c class then k s
      else match starNot class k s' with
           | Some r => Some r
           | None => k s
           end
  | [] => k s
  end.

(** Greedy [+] over the complement of a class. *)
Definition plusNot {X : Type} (class : jsstring) (k : jsstring -> option X)
  (s : jsstring) : option X :=
  match s with
  | c :: s' => if inClass c class then None else starNot class k s'
  | [] => None
  end.

(** A backtracking match at the start of [s].  [opened] is the text at
    which group 1 was entered and [cap] what it captured; the result is the
    capture and the text left after the match. *)
Fixpoint matchPieces (ps : list piece) (opened : jsstring)
  (cap : option jsstring) (s : jsstring)
  : option (option jsstring * jsstring) :=
  match ps with
  | [] => Some (cap, s)
  | PLit p :: ps' =>
      match strip p s with
      | Some s' => matchPieces ps' opened cap s'
      | None => None
      end
  | POneOf class :: ps' =>
      match s with
      | c :: s' =>
          if inClass c class then matchPieces ps' opened cap s' else None
      | [] => None
      end
  | PManyNot class :: ps' => plusNot class (matchPieces ps' opened cap) s
  | POpen :: ps' => matchPieces ps' s cap s
  | PClose :: ps' =>
      matchPieces ps' opened
        (Some (firstn (List.length opened - List.length s)%nat opened)) s
  | POpt p :: ps' =>
      match strip p s with
      | Some s' =>
          match matchPieces ps' opened cap s' with
          | Some r => Some r
          | None => matchPieces ps' opened cap s
          end
      | None => matchPieces ps' opened cap s
      end
  end.

(** [s.match(re)] without the [g] flag: [null], or the matched text and
    the capture of group 1. *)
Fixpoint String_match1 (s : jsstring) (ps : list piece)
  : option (jsstring * option jsstring) :=
  match matchPieces ps [] None s with
  | Some (cap, rest) =>
      Some (firstn (List.length s - List.length rest)%nat s, cap)
  | None =>
      match s with
      | [] => None
      | _ :: s' => String_match1 s' ps
      end
  end.

End JSValue.

Import JSValue.

(** ** [src/configuration.ts] *)

Module Config.

(** What [fromPath] throws: a [ConfigurationError] with its message, a
    [TypeError] of the language (a property read on [null] or [undefined],
    an object that cannot be converted to a string), or what a collaborator
    threw. *)
Inductive error (E : Type) : Type :=
| ConfigurationError (message : jsstring)
| TypeError
| Thrown (e : E).

Arguments ConfigurationError {E}.
Arguments TypeError {E}.
Arguments Thrown {E}.

(** The collaborators of [configuration.ts], outside this repository: the
    numbers of the language, the file system as it stands during one call
    ([fs.statSync], and [JSON.parse(fs.readFileSync(path))] as one step),
    [path.join] on two segments, and [normalize(url).url] of the package
    [normalize-git-url], a string or an error. *)
Record Env (Num E : Type) : Type := mkEnv {
  numTruthy : Num -> bool;
  numToString : Num -> jsstring;
  statSync : jsstring -> E + unit;
  readJSON : jsstring -> E + json Num;
  path_join : jsstring -> jsstring -> jsstring;
  normalizeUrl : value Num -> E + jsstring;
}.

Arguments numTruthy {Num E}.
Arguments numToString {Num E}.
Arguments statSync {Num E}.
Arguments readJSON {Num E}.
Arguments path_join {Num E}.
Arguments normalizeUrl {Num E}.

(** [interface ConfigLoaderOptions] *)
Record ConfigLoaderOptions : Type := mkOptions {
  optNextVersionFromMetadata : option bool;
}.

(** [interface Configuration]; the values read from the JSON files are not
    checked against the declared types. *)
Record Configuration (Num : Type) : Type := mkConfiguration {
  repo : value Num;
  nextVersion : value Num;
  rootPath : jsstring;
  labels : value Num;
  ignoreCommitters : value Num;
  cacheDir : value Num;
  ignoreFilePath : value Num;
  specifiedProjects : value Num;
}.

Arguments repo {Num}.
Arguments nextVersion {Num}.
Arguments rootPath {Num}.
Arguments labels {Num}.
Arguments ignoreCommitters {Num}.
Arguments cacheDir {Num}.
Arguments ignoreFilePath {Num}.
Arguments specifiedProjects {Num}.

(** The regular expression literal of [findRepoFromPkg]. *)
Definition repoPattern : list piece :=
  [PLit (lit "github.com"); POneOf (lit ":/"); POpen; PManyNot (lit "./");
   PLit (lit "/"); PManyNot (lit "./"); PClose; POpt (lit ".git")].

(** The messages of the two [ConfigurationError]s; [QUOTE] is the double
    quote around the names. *)
Definition QUOTE : char := 34.

Definition repoMessage : jsstring :=
  lit "Could not infer " ++ [QUOTE] ++ lit "repo" ++ [QUOTE]
    ++ lit " from the " ++ [QUOTE] ++ lit "package.json" ++ [QUOTE]
    ++ lit " file.".

Definition versionMessage : jsstring :=
  lit "Could not infer " ++ [QUOTE] ++ lit "nextVersion" ++ [QUOTE]
    ++ lit " from the " ++ [QUOTE] ++ lit "package.json" ++ [QUOTE]
    ++ lit " file.".

Section Functions.

Context {Num E : Type}.
Variable env : Env Num E.

Definition bindE {A B : Type} (m : error E + A) (f : A -> error E + B)
  : error E + B :=
  match m with
  | inl e => inl e
  | inr a => f a
  end.

Notation "x <- m ;; k" := (bindE m (fun x => k))
  (at level 61, m at next level, right associativity).

(** A call of a collaborator. *)
Definition call {A : Type} (r : E + A) : error E + A :=
  match r with
  | inl e => inl (Thrown e)
  | inr a => inr a
  end.

(** [Boolean(v)], the test of [!v], [||] and [?:]. *)
Definition truthy (v : value Num) : bool :=
  match v with
  | None => false
  | Some JNull => false
  | Some (JBool b) => b
  | Some (JNum n) => numTruthy env n
  | Some (JStr s) => Boolean s
  | Some (JArr _) => true
  | Some (JObj _) => true
  end.

(** [v.k], for the keys that [configuration.ts] reads; none of them is
    defined by a prototype, so only an object has them. *)
Definition get (v : value Num) (k : jsstring) : error E + value Num :=
  match v with
  | None => inl TypeError
  | Some JNull => inl TypeError
  | Some (JObj props) => inr (own k props)
  | Some _ => inr None
  end.

(** The string of a value in a template literal; [None] is the [TypeError]
    of an object with an own property [toString], which JSON cannot make
    callable. *)
Fixpoint toStr (v : json Num) : option jsstring :=
  match v with
  | JNull => Some (lit "null")
  | JBool true => Some (lit "true")
  | JBool false => Some (lit "false")
  | JNum n => Some (numToString env n)
  | JStr s => Some s
  | JArr xs =>
      option_map (joinWith (lit ","))
        ((fix elements (xs : list (json Num)) : option (list jsstring) :=
            match xs with
            | [] => Some []
            | x :: xs' =>
                match match x with
                      | JNull => Some []
                      | _ => toStr x
                      end, elements xs' with
                | Some a, Some b => Some (a :: b)
                | _, _ => None
                end
            end) xs)
  | JObj props =>
      match own (lit "toString") props with
      | Some _ => None
      | None => Some (lit "[object Object]")
      end
  end.

(** [function existsSync(path)] *)
Definition existsSync (path : jsstring) : bool :=
  match statSync env path with
  | inr _ => true
  | inl _ => false
  end.

(** [function fromLernaConfig(rootPath)] *)
Definition fromLernaConfig (rootPath : jsstring) : error E + value Num :=
  let lernaPath := path_join env rootPath (lit "lerna.json") in
  if existsSync lernaPath then
    parsed <- call (readJSON env lernaPath) ;;
    get (Some parsed) (lit "changelog")
  else inr None.

(** [function fromPackageConfig(rootPath)] *)
Definition fromPackageConfig (rootPath : jsstring) : error E + value Num :=
  let pkgPath := path_join env rootPath (lit "package.json") in
  if existsSync pkgPath then
    parsed <- call (readJSON env pkgPath) ;;
    get (Some parsed) (lit "changelog")
  else inr None.

(** [function findRepoFromPkg(pkg)] *)
Definition findRepoFromPkg (pkg : value Num) : error E + option jsstring :=
  repository <- get pkg (lit "repository") ;;
  repositoryUrl <- get repository (lit "url") ;;
  let url := if truthy repositoryUrl then repositoryUrl else repository in
  normalized <- call (normalizeUrl env url) ;;
  match String_match1 normalized repoPattern with
  | None => inr None
  | Some (_, group1) => inr group1
  end.

(** [function findRepo(rootPath)] *)
Definition findRepo (rootPath : jsstring) : error E + option jsstring :=
  let pkgPath := path_join env rootPath (lit "package.json") in
  if negb (existsSync pkgPath) then inr None
  else
    pkg <- call (readJSON env pkgPath) ;;
    repository <- get (Some pkg) (lit "repository") ;;
    if negb (truthy repository) then inr None
    else findRepoFromPkg (Some pkg).

(** The template literal of [findNextVersion]: [v] and the version. *)
Definition versionTag (version : value Num) : error E + option jsstring :=
  match version with
  | None => inr (Some (lit "vundefined"))
  | Some v =>
      match toStr v with
      | Some s => inr (Some (lit "v" ++ s))
      | None => inl TypeError
      end
  end.

(** [function findNextVersion(rootPath)] *)
Definition findNextVersion (rootPath : jsstring)
  : error E + option jsstring :=
  let pkgPath := path_join env rootPath (lit "package.json") in
  let lernaPath := path_join env rootPath (lit "lerna.json") in
  pkg <- (if existsSync pkgPath then call (readJSON env pkgPath)
          else inr (JObj [])) ;;
  lerna <- (if existsSync lernaPath then call (readJSON env lernaPath)
            else inr (JObj [])) ;;
  pkgVersion <- get (Some pkg) (lit "version") ;;
  if truthy pkgVersion then versionTag pkgVersion
  else
    lernaVersion <- get (Some lerna) (lit "version") ;;
    if truthy lernaVersion then versionTag lernaVersion
    else inr None.

(** The defaults of [fromPath]. *)
Definition defaultLabels : json Num :=
  JObj [ (lit "breaking", JStr (lit ":boom: Breaking Change"));
         (lit "enhancement", JStr (lit ":rocket: Enhancement"));
         (lit "bug", JStr (lit ":bug: Bug Fix"));
         (lit "documentation", JStr (lit ":memo: Documentation"));
         (lit "internal", JStr (lit ":house: Internal")) ].

Definition defaultIgnoreCommitters : json Num :=
  JArr [ JStr (lit "dependabot-bot"); JStr (lit "dependabot[bot]");
         JStr (lit "greenkeeperio-bot"); JStr (lit "greenkeeper[bot]");
         JStr (lit "renovate-bot"); JStr (lit "renovate[bot]") ].

(** [function fromPath(rootPath, options = {})] *)
Definition fromPath (rootPath : jsstring) (options : ConfigLoaderOptions)
  : error E + Configuration Num :=
  fromPackage <- fromPackageConfig rootPath ;;
  fromFiles <- (if truthy fromPackage then inr fromPackage
                else fromLernaConfig rootPath) ;;
  let config := if truthy fromFiles then fromFiles else Some (JObj []) in
  repo0 <- get config (lit "repo") ;;
  nextVersion0 <- get config (lit "nextVersion") ;;
  labels0 <- get config (lit "labels") ;;
  cacheDir0 <- get config (lit "cacheDir") ;;
  ignoreCommitters0 <- get config (lit "ignoreCommitters") ;;
  ignoreFilePath0 <- get config (lit "ignoreFilePath") ;;
  specifiedProjects0 <- get config (lit "specifiedProjects") ;;
  repo1 <- (if negb (truthy repo0) then
              found <- findRepo rootPath ;;
              let repo := option_map JStr found in
              if negb (truthy repo) then inl (ConfigurationError repoMessage)
              else inr repo
            else inr repo0) ;;
  fromMetadata <- (match optNextVersionFromMetadata options with
                   | Some true => inr true
                   | _ =>
                       flag <- get config (lit "nextVersionFromMetadata") ;;
                       inr (truthy flag)
                   end) ;;
  nextVersion1 <- (if (fromMetadata : bool) then
                     found <- findNextVersion rootPath ;;
                     let version := option_map JStr found in
                     if negb (truthy version) then
                       inl (ConfigurationError versionMessage)
                     else inr version
                   else inr nextVersion0) ;;
  let labels1 := if negb (truthy labels0) then Some defaultLabels
                 else labels0 in
  let ignoreCommitters1 :=
    if negb (truthy ignoreCommitters0) then Some defaultIgnoreCommitters
    else ignoreCommitters0 in
  let ignoreFilePath1 :=
    if negb (truthy ignoreFilePath0) then Some (JArr []) else ignoreFilePath0 in
  let specifiedProjects1 :=
    if negb (truthy specifiedProjects0) then Some (JArr [])
    else specifiedProjects0 in
  inr {| repo := repo1;
         nextVersion := nextVersion1;
         rootPath := rootPath;
         labels := labels1;
         ignoreCommitters := ignoreCommitters1;
         cacheDir := cacheDir0;
         ignoreFilePath := ignoreFilePath1;
         specifiedProjects := specifiedProjects1 |}.

End Functions.

End Config.

Import Config.

(** ** What the properties of [configuration.ts] are stated with *)

Module ConfigSpec.

(** The class of the regular expression of [findRepoFromPkg] that ends a
    segment of a repository name, and the class after the host. *)
Definition stops : jsstring := Eval cbv in lit "./".
Definition joints : jsstring := Eval cbv in lit ":/".
Definition host : jsstring := Eval cbv in lit "github.com".
Definition slash : jsstring := Eval cbv in lit "/".

(** A text without code unit of a class. *)
Definition avoids (class g : jsstring) : bool :=
  forallb (fun c => negb (inClass c class)) g.

(** A segment of a repository name: not empty, without dot and slash. *)
Definition segment (g : jsstring) : bool := Boolean g && avoids stops g.

(** A text at which a greedy run over the complement of a class ends. *)
Definition endsRun (class t : jsstring) : bool :=
  match t with
  | [] => true
  | c :: _ => inClass c class
  end.

(** [owner/name] occurs in a normalized URL after [pre], behind the host
    and a colon or slash. *)
Definition repoAt (normalized pre owner name : jsstring) : Prop :=
  exists c rest,
    normalized = pre ++ host ++ c :: owner ++ slash ++ name ++ rest
    /\ inClass c joints = true
    /\ segment owner = true /\ segment name = true.

(** [chosen env rootPath config]: [config] is the [changelog] entry that
    [fromPath] works with: that of [package.json] when it is truthy,
    otherwise that of [lerna.json] when it is truthy, otherwise an empty
    object. *)
Definition chosen {Num E : Type} (env : Env Num E) (rootPath : jsstring)
  (config : value Num) : Prop :=
  (fromPackageConfig env rootPath = inr config /\ truthy env config = true)
  \/ (exists c,
        fromPackageConfig env rootPath = inr c /\ truthy env c = false
        /\ fromLernaConfig env rootPath = inr config
        /\ truthy env config = true)
  \/ (exists c c',
        fromPackageConfig env rootPath = inr c /\ truthy env c = false
        /\ fromLernaConfig env rootPath = inr c' /\ truthy env c' = false
        /\ config = Some (JObj [])).

(** [setting env config key default result]: [result] is the property
    [key] of [config] when that is truthy, and [default] otherwise. *)
Definition setting {Num E : Type} (env : Env Num E) (config : value Num)
  (key : jsstring) (default result : value Num) : Prop :=
  exists v,
    get (E := E) config key = inr v
    /\ result = if truthy env v then v else default.

(** A file system with a [package.json] and a [lerna.json] at a root, or
    without them; numbers are naturals, [path.join] puts a slash between
    the segments and [normalize] leaves strings as they are. *)
Definition root : jsstring := Eval cbv in lit "/work".
Definition pkgPath : jsstring := Eval cbv in lit "/work/package.json".
Definition lernaPath : jsstring := Eval cbv in lit "/work/lerna.json".

Definition files (pkg lerna : option (jsstring + json N)) : Env N jsstring :=
  {| numTruthy := fun n => negb (n =? 0);
     numToString := fun n => [48 + n];
     statSync := fun path =>
       if str_eqb path pkgPath then
         match pkg with Some _ => inr tt | None => inl path end
       else if str_eqb path lernaPath then
         match lerna with Some _ => inr tt | None => inl path end
       else inl path;
     readJSON := fun path =>
       if str_eqb path pkgPath then
         match pkg with Some f => f | None => inl path end
       else if str_eqb path lernaPath then
         match lerna with Some f => f | None => inl path end
       else inl path;
     path_join := fun a b => a ++ slash ++ b;
     normalizeUrl := fun v =>
       match v with
       | Some (JStr s) => inr s
       | _ => inl (lit "not a string")
       end |}.

Definition samplePkg : json N :=
  JObj [ (lit "name", JStr (lit "lerna-changelog"));
         (lit "version", JStr (lit "1.2.0"));
         (lit "repository",
          JObj [ (lit "type", JStr (lit "git"));
                 (lit "url",
                  JStr (lit "https://github.com/lerna/lerna-changelog.git")) ]);
         (lit "changelog",
          JObj [ (lit "cacheDir", JStr (lit ".changelog")) ]) ].

Definition sampleLerna : json N :=
  JObj [ (lit "version", JStr (lit "0.9.0"));
         (lit "changelog",
          JObj [ (lit "repo", JStr (lit "other/repo"));
                 (lit "labels", JObj [ (lit "bug", JStr (lit "Bugs")) ]) ]) ].

Definition bothFiles : Env N jsstring :=
  files (Some (inr samplePkg)) (Some (inr sampleLerna)).

(** The same root with a [lerna.json] that cannot be parsed. *)
Definition brokenLerna : Env N jsstring :=
  files (Some (inr samplePkg)) (Some (inl (lit "Unexpected token"))).

(** A package whose repository is a URL without a GitHub name. *)
Definition elsewherePkg : json N :=
  JObj [ (lit "repository", JStr (lit "https://example.org/lerna.git")) ].

Definition elsewhereUrl : jsstring :=
  Eval cbv in lit "https://example.org/lerna.git".

(** The [changelog] entry of [samplePkg]. *)
Definition sampleChangelog : json N :=
  JObj [ (lit "cacheDir", JStr (lit ".changelog")) ].

Definition sampleUrl : jsstring :=
  Eval cbv in lit "https://github.com/lerna/lerna-changelog.git".
Definition sampleRepo : jsstring := Eval cbv in lit "lerna/lerna-changelog".

End ConfigSpec.

Import ConfigSpec.

(** ** Facts about the runtime *)

Module JSFacts.

Example split_empty : split LF [] = [[]].
Proof. reflexivity. Qed.

Example split_trailing :
  split LF (lit "a" ++ [LF] ++ lit "b" ++ [LF]) = [lit "a"; lit "b"; []].
Proof. reflexivity. Qed.

Lemma str_eqb_eq (a b : jsstring) : str_eqb a b = true <-> a = b.
Proof.
  revert b; induction a as [|x a IH]; intros [|y b]; simpl;
    try (split; (discriminate || reflexivity)).
  rewrite andb_true_iff, N.eqb_eq, IH.
  split; [intros [-> ->]; reflexivity | intros H; inversion H; auto].
Qed.

Lemma includes_In (arr : list jsstring) (s : jsstring) :
  includes arr s = true <-> In s arr.
Proof.
  unfold includes. rewrite existsb_exists. split.
  - intros (t & Hin & Heq). apply str_eqb_eq in Heq. subst. assumption.
  - intros Hin. exists s. split; [assumption | apply str_eqb_eq; reflexivity].
Qed.

Lemma includes_false (arr : list jsstring) (s : jsstring) :
  includes arr s = false <-> ~ In s arr.
Proof.
  rewrite <- includes_In. destruct (includes arr s); split; intros H;
    try reflexivity; try discriminate; try (intros H'; discriminate).
  exfalso; apply H; reflexivity.
Qed.

Lemma split_not_nil (sep : char) (s : jsstring) : split sep s <> [].
Proof.
  destruct s as [|c s]; simpl; [discriminate|].
  destruct (c =? sep); [discriminate|].
  destruct (split sep s); discriminate.
Qed.

(** [split] loses nothing: joining the pieces gives the text back. *)
Lemma join_split (sep : char) (s : jsstring) : join sep (split sep s) = s.
Proof.
  induction s as [|c s IH]; simpl; [reflexivity|].
  destruct (c =? sep) eqn:E.
  - apply N.eqb_eq in E. subst c.
    pose proof (split_not_nil sep s) as Hn.
    destruct (split sep s) as [|l ls]; [contradiction|].
    simpl in *. rewrite IH. reflexivity.
  - pose proof (split_not_nil sep s) as Hn.
    destruct (split sep s) as [|l ls]; [contradiction|].
    destruct ls as [|l' ls]; simpl in *; rewrite <- IH; reflexivity.
Qed.

(** No piece contains the separator. *)
Lemma split_no_sep (sep : char) (s l : jsstring) :
  In l (split sep s) -> ~ In sep l.
Proof.
  revert l; induction s as [|c s IH]; simpl; intros l Hin.
  - destruct Hin as [<-|[]]. intros [].
  - destruct (c =? sep) eqn:E.
    + destruct Hin as [<-|Hin]; [intros []|auto].
    + destruct (split sep s) as [|l0 ls] eqn:Es.
      * destruct Hin as [<-|[]]. intros [H|[]]. subst.
        rewrite N.eqb_refl in E. discriminate.
      * destruct Hin as [<-|Hin].
        -- intros [H|H].
           ++ subst. rewrite N.eqb_refl in E. discriminate.
           ++ apply (IH l0); [left; reflexivity | assumption].
        -- apply IH. right. assumption.
Qed.

Lemma filterObj_In {T : Type} (xs : list (option T)) (x : T) :
  In x (filterObj xs) <-> In (Some x) xs.
Proof.
  induction xs as [|[y|] xs IH]; simpl.
  - tauto.
  - rewrite IH. split; intros [H|H]; auto; left; congruence.
  - rewrite IH. split; [auto | intros [H|H]; [discriminate | assumption]].
Qed.

Lemma strip_spec (p s r : jsstring) : strip p s = Some r <-> s = p ++ r.
Proof.
  revert s; induction p as [|x p IH]; intros s; simpl.
  - split; congruence.
  - destruct s as [|y s]; [split; discriminate|].
    destruct (x =? y) eqn:E.
    + apply N.eqb_eq in E. subst y. rewrite IH.
      split; [intros ->; reflexivity | intros H; inversion H; reflexivity].
    + split; [discriminate|]. intros H. inversion H. subst.
      rewrite N.eqb_refl in E. discriminate.
Qed.

(** *** The matcher against the declarative reading *)

Section Quantifiers.

Context {X : Type} (k : jsstring -> option X).

Lemma star_sound (s g : jsstring) (x : X) :
  star k s = Some (g, x) ->
  exists t, s = g ++ t /\ dots g = true /\ k t = Some x.
Proof.
  revert g; induction s as [|c s IH]; intros g; simpl.
  - destruct (k []) eqn:Ek; simpl; [|discriminate].
    intros H. inversion H. subst. exists []. auto.
  - destruct (dot c) eqn:Ec.
    + destruct (star k s) as [[g' x']|] eqn:Es.
      * intros H. inversion H. subst.
        destruct (IH g' eq_refl) as (t & -> & Hd & Hk).
        exists t. simpl. rewrite Ec. auto.
      * destruct (k (c :: s)) eqn:Ek; simpl; [|discriminate].
        intros H. inversion H. subst. exists (c :: s). auto.
    + destruct (k (c :: s)) eqn:Ek; simpl; [|discriminate].
      intros H. inversion H. subst. exists (c :: s). auto.
Qed.

Lemma star_complete (g t : jsstring) :
  dots g = true -> k t <> None -> star k (g ++ t) <> None.
Proof.
  intros Hg Hk. induction g as [|c g IH]; simpl.
  - destruct (k t) eqn:Ek; [|contradiction].
    destruct t as [|c t]; simpl; [rewrite Ek; discriminate|].
    destruct (dot c); [|rewrite Ek; discriminate].
    destruct (star k t) as [[g' x']|]; [|rewrite Ek]; discriminate.
  - simpl in Hg. apply andb_true_iff in Hg. destruct Hg as [Hc Hg].
    rewrite Hc. specialize (IH Hg).
    destruct (star k (g ++ t)) as [[g' x']|]; [discriminate|contradiction].
Qed.

Lemma plus_sound (s g : jsstring) (x : X) :
  plus k s = Some (g, x) ->
  exists t,
    s = g ++ t /\ dots g = true /\ Boolean g = true /\ k t = Some x.
Proof.
  destruct s as [|c s]; simpl; [discriminate|].
  destruct (dot c) eqn:Ec; [|discriminate].
  destruct (star k s) as [[g' x']|] eqn:Es; [|discriminate].
  intros H. inversion H. subst.
  destruct (star_sound _ _ _ Es) as (t & -> & Hd & Hk).
  exists t. simpl. rewrite Ec. auto.
Qed.

Lemma plus_complete (g t : jsstring) :
  dots g = true -> Boolean g = true -> k t <> None ->
  plus k (g ++ t) <> None.
Proof.
  intros Hg Hb Hk. destruct g as [|c g]; [discriminate|].
  simpl in *. apply andb_true_iff in Hg. destruct Hg as [Hc Hg].
  rewrite Hc. pose proof (star_complete g t Hg Hk) as Hs.
  destruct (star k (g ++ t)) as [[g' x']|]; [discriminate|contradiction].
Qed.

End Quantifiers.

Lemma matchHere_sound (re : regex) (s rest : jsstring)
  (caps : list jsstring) :
  matchHere re s = Some (caps, rest) ->
  exists t, s = t ++ rest /\ Matches re t caps.
Proof.
  revert s caps; induction re as [|[p| |] re IH]; intros s caps; simpl.
  - intros H. inversion H. subst. exists []. split; [reflexivity|constructor].
  - destruct (strip p s) as [s'|] eqn:Es; [|discriminate].
    apply strip_spec in Es. subst s. intros H.
    destruct (IH _ _ H) as (t & -> & Hm).
    exists (p ++ t). rewrite app_assoc. split; [reflexivity|].
    constructor. assumption.
  - destruct (star (matchHere re) s) as [[g [caps' rest']]|] eqn:Es;
      [|discriminate].
    intros H. inversion H. subst.
    destruct (star_sound _ _ _ _ Es) as (t0 & -> & Hd & Hk).
    destruct (IH _ _ Hk) as (t & -> & Hm).
    exists (g ++ t). rewrite app_assoc. split; [reflexivity|].
    constructor; assumption.
  - destruct (plus (matchHere re) s) as [[g [caps' rest']]|] eqn:Es;
      [|discriminate].
    intros H. inversion H. subst.
    destruct (plus_sound _ _ _ _ Es) as (t0 & -> & Hd & Hb & Hk).
    destruct (IH _ _ Hk) as (t & -> & Hm).
    exists (g ++ t). rewrite app_assoc. split; [reflexivity|].
    constructor; assumption.
Qed.

Lemma matchHere_complete (re : regex) (t : jsstring)
  (caps : list jsstring) :
  Matches re t caps -> forall rest, matchHere re (t ++ rest) <> None.
Proof.
  induction 1 as [|p re t caps Hm IH|g re t caps Hd Hm IH
                  |g re t caps Hd Hb Hm IH]; intros rest; simpl.
  - discriminate.
  - rewrite <- app_assoc.
    destruct (strip p (p ++ t ++ rest)) as [s'|] eqn:Es.
    + apply strip_spec in Es. apply app_inv_head in Es. subst s'. apply IH.
    + assert (Hs : strip p (p ++ t ++ rest) = Some (t ++ rest))
        by (apply strip_spec; reflexivity).
      congruence.
  - rewrite <- app_assoc.
    pose proof (star_complete (matchHere re) g (t ++ rest) Hd (IH rest)) as Hs.
    destruct (star (matchHere re) (g ++ t ++ rest)) as [[g' [c r]]|];
      [discriminate|contradiction].
  - rewrite <- app_assoc.
    pose proof (plus_complete (matchHere re) g (t ++ rest) Hd Hb (IH rest))
      as Hs.
    destruct (plus (matchHere re) (g ++ t ++ rest)) as [[g' [c r]]|];
      [discriminate|contradiction].
Qed.

Lemma String_match_eq (re : regex) (s : jsstring) :
  String_match s re =
  match matchHere re s with
  | Some (caps, rest) =>
      Some (firstn (List.length s - List.length rest)%nat s :: caps)
  | None =>
      match s with
      | [] => None
      | _ :: s' => String_match s' re
      end
  end.
Proof. destruct s; reflexivity. Qed.

Lemma firstn_matched (t rest : jsstring) :
  firstn (List.length (t ++ rest) - List.length rest)%nat (t ++ rest) = t.
Proof.
  rewrite length_app, Nat.add_sub, firstn_app, Nat.sub_diag, firstn_all.
  simpl. apply app_nil_r.
Qed.

(** A match array is the matched text, which occurs in the subject, and
    its captures. *)
Lemma String_match_sound (re : regex) (s : jsstring)
  (parts : list jsstring) :
  String_match s re = Some parts ->
  exists pre t post caps,
    s = pre ++ t ++ post /\ Matches re t caps /\ parts = t :: caps.
Proof.
  induction s as [|c s IH]; rewrite String_match_eq.
  - destruct (matchHere re []) as [[caps rest]|] eqn:Em; [|discriminate].
    intros H. inversion H. subst.
    destruct (matchHere_sound _ _ _ _ Em) as (t & Ht & Hm).
    symmetry in Ht. apply app_eq_nil in Ht. destruct Ht as [-> ->].
    exists [], [], [], caps. auto.
  - destruct (matchHere re (c :: s)) as [[caps rest]|] eqn:Em.
    + intros H.
      destruct (matchHere_sound _ _ _ _ Em) as (t & Ht & Hm).
      rewrite Ht, firstn_matched in H.
      exists [], t, rest, caps. split; [assumption|].
      split; [assumption|]. congruence.
    + intros H. destruct (IH H) as (pre & t & post & caps & -> & Hm & ->).
      exists (c :: pre), t, post, caps. auto.
Qed.

(** Every text in which the expression occurs has a match. *)
Lemma String_match_complete (re : regex) (pre t post : jsstring)
  (caps : list jsstring) :
  Matches re t caps -> String_match (pre ++ t ++ post) re <> None.
Proof.
  intros Hm. induction pre as [|c pre IH]; simpl.
  - pose proof (matchHere_complete _ _ _ Hm post) as Hh.
    destruct (t ++ post) as [|c s]; simpl;
      destruct (matchHere re _) as [[caps' rest]|];
      try discriminate; contradiction.
  - destruct (matchHere re (c :: pre ++ t ++ post)) as [[caps' rest]|];
      [discriminate|assumption].
Qed.

(** At index 0 the array is the one [matchHere] finds. *)
Lemma String_match_here (re : regex) (s rest : jsstring)
  (caps : list jsstring) :
  matchHere re s = Some (caps, rest) ->
  exists whole, String_match s re = Some (whole :: caps).
Proof.
  intros Hm. destruct s as [|c s]; simpl; rewrite Hm; eauto.
Qed.

End JSFacts.

Import JSFacts.

(** ** Facts about [parseLogMessage] *)

Module ParseFacts.

Local Arguments N.eqb : simpl never.

Lemma Matches_logPattern (t : jsstring) (caps : list jsstring) :
  Matches logPattern t caps ->
  exists item,
    caps = [sha item; refName item; summary item; date item]
    /\ t = serialize item /\ fieldsOk item = true.
Proof.
  unfold logPattern. intros H.
  repeat match goal with
         | H : Matches (_ :: _) _ _ |- _ => inversion H; clear H; subst
         | H : Matches [] _ _ |- _ => inversion H; clear H; subst
         end.
  match goal with
  | |- context [[?a; ?b; ?c; ?d]] => exists (mkItem a b c d)
  end.
  unfold serialize, fieldsOk. simpl.
  repeat split; try reflexivity.
  repeat (apply andb_true_iff; split); assumption.
Qed.

Lemma Matches_serialize (item : CommitListItem) :
  fieldsOk item = true ->
  Matches logPattern (serialize item)
    [sha item; refName item; summary item; date item].
Proof.
  unfold fieldsOk. rewrite !andb_true_iff.
  intros [[[[Hb Hs] Hr] Hm] Hd].
  unfold logPattern, serialize.
  rewrite <- (app_nil_r close).
  repeat (first [ apply Matches_lit | apply Matches_plus
                | apply Matches_star | apply Matches_nil ];
          try assumption).
Qed.

(** What a match array of [logPattern] holds. *)
Lemma parts_of_match (line : jsstring) (parts : list jsstring) :
  String_match line logPattern = Some parts ->
  exists pre item post whole,
    line = pre ++ serialize item ++ post /\ fieldsOk item = true
    /\ parts = [whole; sha item; refName item; summary item; date item].
Proof.
  intros H.
  destruct (String_match_sound _ _ _ H) as (pre & t & post & caps & -> & Hm & ->).
  destruct (Matches_logPattern _ _ Hm) as (item & -> & -> & Hok).
  exists pre, item, post, (serialize item). auto.
Qed.

(** A record comes from a line in which the structured format occurs with
    the record's values, and only from such a line. *)
Lemma parseLogMessage_sound (line : jsstring) (item : CommitListItem) :
  parseLogMessage line = Some item ->
  exists pre post,
    line = pre ++ serialize item ++ post /\ fieldsOk item = true.
Proof.
  unfold parseLogMessage.
  destruct (String_match line logPattern) as [parts|] eqn:Em;
    [|simpl; discriminate].
  destruct (parts_of_match _ _ Em) as (pre & it & post & whole & -> & Hok & ->).
  simpl. intros [= <-]. exists pre, post. destruct it. auto.
Qed.

Lemma parseLogMessage_complete (line : jsstring) :
  formatOccurs line -> parseLogMessage line <> None.
Proof.
  intros (pre & item & post & -> & Hok).
  pose proof (String_match_complete _ pre _ post _ (Matches_serialize _ Hok))
    as Hm.
  unfold parseLogMessage.
  destruct (String_match _ logPattern) as [parts|] eqn:Em; [|contradiction].
  destruct (parts_of_match _ _ Em) as (? & ? & ? & ? & _ & _ & ->).
  simpl. discriminate.
Qed.

(** [parseLogMessage] returns a record exactly on the lines that match the
    structured format. *)
Lemma parseLogMessage_matches (line : jsstring) :
  parseLogMessage line <> None <-> formatOccurs line.
Proof.
  split; [|apply parseLogMessage_complete].
  destruct (parseLogMessage line) as [item|] eqn:E; [|contradiction].
  intros _. destruct (parseLogMessage_sound _ _ E) as (pre & post & -> & Hok).
  exists pre, item, post. auto.
Qed.

(** *** Unique reading of a line without delimiters in its fields *)

Lemma occurs_filter (c : char) (f : jsstring) :
  occurs c f = false <-> filter (N.eqb c) f = [].
Proof.
  unfold occurs. induction f as [|x f IH]; simpl; [tauto|].
  destruct (c =? x); simpl; [split; discriminate | exact IH].
Qed.

Lemma occurs_count (c : char) (f : jsstring) :
  occurs c f = false <-> List.length (filter (N.eqb c) f) = 0%nat.
Proof. rewrite occurs_filter. symmetry. apply length_zero_iff_nil. Qed.

Lemma occurs_app (c : char) (f g : jsstring) :
  occurs c (f ++ g) = false <-> occurs c f = false /\ occurs c g = false.
Proof. unfold occurs. rewrite existsb_app. apply orb_false_iff. Qed.

(** Two texts that agree and are cut at their first [c] agree on both
    sides of the cut. *)
Lemma break_unique (c : char) (a a' t t' : jsstring) :
  occurs c a = false -> occurs c a' = false ->
  a ++ c :: t = a' ++ c :: t' -> a = a' /\ t = t'.
Proof.
  unfold occurs.
  revert a'; induction a as [|x a IH]; intros [|x' a']; simpl;
    intros Ha Ha' E.
  - inversion E. auto.
  - inversion E. subst x'. rewrite N.eqb_refl in Ha'. discriminate.
  - inversion E. subst x. rewrite N.eqb_refl in Ha. discriminate.
  - inversion E. subst x'. apply orb_false_iff in Ha, Ha'.
    destruct (IH a' (proj2 Ha) (proj2 Ha') H1) as [-> ->]. auto.
Qed.

(** A serialized record, cut at its closing delimiters. *)
Lemma serialize_shape (item : CommitListItem) (rest : jsstring) :
  serialize item ++ rest =
  (hashOpen ++ sha item) ++ GT :: tl refOpen ++ refName item
    ++ GT :: tl messageOpen ++ summary item
    ++ GT :: tl dateOpen ++ date item ++ GT :: rest.
Proof. unfold serialize. rewrite <- !app_assoc. reflexivity. Qed.

Lemma closes_serialize (item : CommitListItem) (rest : jsstring) :
  List.length (filter (N.eqb GT) (serialize item ++ rest)) =
  (4 + (List.length (filter (N.eqb GT) (sha item))
        + (List.length (filter (N.eqb GT) (refName item))
           + (List.length (filter (N.eqb GT) (summary item))
              + (List.length (filter (N.eqb GT) (date item))
                 + List.length (filter (N.eqb GT) rest))))))%nat.
Proof.
  unfold serialize. rewrite !filter_app, !length_app.
  change (List.length (filter (N.eqb GT) hashOpen)) with 0%nat.
  change (List.length (filter (N.eqb GT) refOpen)) with 1%nat.
  change (List.length (filter (N.eqb GT) messageOpen)) with 1%nat.
  change (List.length (filter (N.eqb GT) dateOpen)) with 1%nat.
  change (List.length (filter (N.eqb GT) close)) with 1%nat.
  unfold jsstring, char in *. lia.
Qed.

Lemma freeOf_fields (c : char) (item : CommitListItem) :
  freeOf c item = true <->
  occurs c (sha item) = false /\ occurs c (refName item) = false
  /\ occurs c (summary item) = false /\ occurs c (date item) = false.
Proof.
  unfold freeOf. rewrite !andb_true_iff, !negb_true_iff. tauto.
Qed.

(** A line that serializes a record without [>] in its fields reads as
    the structured format in one way only, up to what precedes the hash. *)
Lemma serialize_reading (item item' : CommitListItem) (pre post : jsstring) :
  freeOf GT item = true ->
  serialize item = pre ++ serialize item' ++ post ->
  hashOpen ++ sha item = pre ++ hashOpen ++ sha item'
  /\ refName item' = refName item /\ summary item' = summary item
  /\ date item' = date item /\ post = [].
Proof.
  intros Hfree E.
  apply freeOf_fields in Hfree. destruct Hfree as (Hs & Hr & Hm & Hd).
  assert (Hcount :
            List.length (filter (N.eqb GT) (serialize item ++ [])) =
            (List.length (filter (N.eqb GT) pre)
             + List.length (filter (N.eqb GT) (serialize item' ++ post)))%nat)
    by (rewrite app_nil_r, E, filter_app, length_app; reflexivity).
  rewrite !closes_serialize in Hcount.
  pose proof Hs as Hs0. pose proof Hr as Hr0.
  pose proof Hm as Hm0. pose proof Hd as Hd0.
  apply occurs_count in Hs0, Hr0, Hm0, Hd0.
  rewrite Hs0, Hr0, Hm0, Hd0 in Hcount. simpl in Hcount.
  assert (Hp : occurs GT pre = false) by (apply occurs_count; lia).
  assert (Hs' : occurs GT (sha item') = false) by (apply occurs_count; lia).
  assert (Hr' : occurs GT (refName item') = false)
    by (apply occurs_count; lia).
  assert (Hm' : occurs GT (summary item') = false)
    by (apply occurs_count; lia).
  assert (Hd' : occurs GT (date item') = false)
    by (apply occurs_count; lia).
  clear Hcount Hs0 Hr0 Hm0 Hd0.
  rewrite <- (app_nil_r (serialize item)) in E.
  rewrite !serialize_shape, (app_assoc pre) in E.
  apply break_unique in E.
  2:{ apply occurs_app. split; [reflexivity | assumption]. }
  2:{ apply occurs_app. split; [assumption|].
      apply occurs_app. split; [reflexivity | assumption]. }
  destruct E as [E1 E]. split; [exact E1|].
  apply app_inv_head in E.
  apply break_unique in E; [|assumption|assumption].
  destruct E as [-> E]. apply app_inv_head in E.
  apply break_unique in E; [|assumption|assumption].
  destruct E as [-> E]. apply app_inv_head in E.
  apply break_unique in E; [|assumption|assumption].
  destruct E as [-> E]. auto.
Qed.

Lemma serialize_unique (item item' : CommitListItem) (rest : jsstring) :
  freeOf GT item = true ->
  serialize item = serialize item' ++ rest ->
  item' = item /\ rest = [].
Proof.
  intros Hfree E.
  destruct (serialize_reading item item' [] rest Hfree E)
    as (Es & Er & Em & Ed & ->).
  change ([] ++ hashOpen ++ sha item') with (hashOpen ++ sha item') in Es.
  apply app_inv_head in Es.
  destruct item, item'. simpl in *. subst. auto.
Qed.

(** Parsing the line of a record gives the record back, when the format
    can carry its fields and no field contains [>]. *)
Lemma parseLogMessage_serialize (item : CommitListItem) :
  fieldsOk item = true -> freeOf GT item = true ->
  parseLogMessage (serialize item) = Some item.
Proof.
  intros Hok Hfree.
  pose proof (matchHere_complete _ _ _ (Matches_serialize _ Hok) []) as Hh.
  rewrite app_nil_r in Hh.
  destruct (matchHere logPattern (serialize item)) as [[caps rest]|] eqn:Em;
    [|contradiction].
  destruct (String_match_here _ _ _ _ Em) as (whole & Hs).
  destruct (matchHere_sound _ _ _ _ Em) as (t & Ht & Hm).
  destruct (Matches_logPattern _ _ Hm) as (item' & -> & -> & _).
  destruct (serialize_unique _ _ _ Hfree Ht) as [-> ->].
  unfold parseLogMessage. rewrite Hs. simpl. destruct item. reflexivity.
Qed.

(** No line separator occurs in a line that is the structured format from
    end to end. *)
Lemma dots_no_separator (g : jsstring) :
  dots g = true -> occurs 8232 g = false.
Proof.
  unfold dots, occurs. induction g as [|c g IH]; simpl; [reflexivity|].
  rewrite andb_true_iff. intros [Hc Hg]. rewrite (IH Hg), orb_false_r.
  unfold dot, isLineTerminator in Hc. rewrite N.eqb_sym.
  destruct (c =? 8232); [|reflexivity].
  rewrite orb_true_r in Hc. discriminate.
Qed.

Lemma conformsEntirely_no_separator (line : jsstring) :
  conformsEntirely line -> occurs 8232 line = false.
Proof.
  intros (item & -> & Hok). unfold fieldsOk in Hok.
  rewrite !andb_true_iff in Hok. destruct Hok as [[[[_ Hs] Hr] Hm] Hd].
  unfold serialize. rewrite !occurs_app.
  repeat split; try reflexivity; apply dots_no_separator; assumption.
Qed.

(** When no field contains a delimiter, the line of a record matches the
    structured format only with the record's own fields. *)
Lemma formatOccurs_fieldsOk (item : CommitListItem) :
  delimiterFree item = true ->
  formatOccurs (serialize item) -> fieldsOk item = true.
Proof.
  unfold delimiterFree. rewrite andb_true_iff.
  intros [Hlt Hgt] (pre & item' & post & E & Hok).
  destruct (serialize_reading _ _ _ _ Hgt E) as (Es & Er & Em & Ed & _).
  apply freeOf_fields in Hlt. destruct Hlt as (Hs & _).
  assert (Hcount :
            List.length (filter (N.eqb LT) (hashOpen ++ sha item)) =
            List.length (filter (N.eqb LT) (pre ++ hashOpen ++ sha item')))
    by (rewrite Es; reflexivity).
  rewrite !filter_app, !length_app in Hcount.
  change (List.length (filter (N.eqb LT) hashOpen)) with 1%nat in Hcount.
  apply occurs_count in Hs. pose proof Hs as Hs0.
  apply occurs_count in Hs0.
  assert (Hp : occurs LT pre = false)
    by (apply occurs_count; unfold jsstring, char in *; lia).
  assert (Hs' : occurs LT (sha item') = false)
    by (apply occurs_count; unfold jsstring, char in *; lia).
  assert (Es' : removelast hashOpen ++ LT :: sha item =
                (pre ++ removelast hashOpen) ++ LT :: sha item')
    by (rewrite <- app_assoc; exact Es).
  apply break_unique in Es'.
  2:{ reflexivity. }
  2:{ apply occurs_app. split; [assumption | reflexivity]. }
  destruct Es' as [_ Es'].
  destruct item as [s r m d], item' as [s' r' m' d'].
  simpl in *. subst. exact Hok.
Qed.

End ParseFacts.

Import ParseFacts.

(** ** Facts about the functions that run [git] *)

Module GitFacts.

Lemma Selects_filter {A : Type} (P : A -> Prop) (f : A -> bool)
  (xs : list A) :
  (forall x, f x = true <-> P x) -> Selects P xs (filter f xs).
Proof.
  intros Hf. induction xs as [|x xs IH]; simpl; [constructor|].
  destruct (f x) eqn:E.
  - apply Selects_keep; [apply Hf; assumption | assumption].
  - apply Selects_drop; [|assumption].
    intros HP. apply Hf in HP. congruence.
Qed.

Lemma Selects_In {A : Type} (P : A -> Prop) (xs ys : list A) :
  Selects P xs ys -> forall y, In y ys <-> In y xs /\ P y.
Proof.
  induction 1 as [|x xs ys HP Hs IH|x xs ys HP Hs IH]; intros y; simpl.
  - tauto.
  - rewrite IH. split.
    + intros [<-|[Hin Hy]]; auto.
    + intros [[<-|Hin] Hy]; auto.
  - rewrite IH. split.
    + intros [Hin Hy]; auto.
    + intros [[<-|Hin] Hy]; [contradiction | auto].
Qed.

Lemma Boolean_nonBlank (l : jsstring) : Boolean l = true <-> nonBlank l.
Proof.
  unfold nonBlank. destruct l; simpl; split; congruence.
Qed.

Lemma blank_not_format : ~ formatOccurs [].
Proof.
  intros H. apply parseLogMessage_matches in H. apply H. reflexivity.
Qed.

(** The parsing chain keeps one record for each line that matches the
    format, in the order of the lines, and nothing for the others. *)
Lemma parse_lines (lines : list jsstring) :
  exists kept,
    Selects formatOccurs lines kept
    /\ Forall2 (fun line item => parseLogMessage line = Some item) kept
         (filterObj (map parseLogMessage (filter Boolean lines))).
Proof.
  induction lines as [|l lines (kept & Hs & Hf)]; simpl.
  - exists []. split; constructor.
  - destruct l as [|c l]; simpl.
    + exists kept. split; [|assumption].
      apply Selects_drop; [apply blank_not_format | assumption].
    + destruct (parseLogMessage (c :: l)) as [item|] eqn:E.
      * exists ((c :: l) :: kept). split.
        -- apply Selects_keep; [|assumption].
           apply parseLogMessage_matches. congruence.
        -- constructor; assumption.
      * exists kept. split; [|assumption].
        apply Selects_drop; [|assumption].
        intros H. apply parseLogMessage_matches in H. contradiction.
Qed.

(** An empty exclusion array filters nothing. *)
Lemma filter_no_targets (targets : list jsstring)
  (items : list CommitListItem) :
  (forall s, ~ In s targets) ->
  filter (fun item => negb (includes targets (summary item))) items = items.
Proof.
  intros Hnone. induction items as [|item l IH]; simpl; [reflexivity|].
  destruct (includes targets (summary item)) eqn:E.
  - apply includes_In in E. exfalso. exact (Hnone _ E).
  - simpl. f_equal. exact IH.
Qed.

Lemma parseLog_In (raw : jsstring) (item : CommitListItem) :
  In item (parseLog raw) ->
  exists line, In line (split LF raw) /\ parseLogMessage line = Some item.
Proof.
  unfold parseLog. rewrite filterObj_In, in_map_iff.
  intros (line & E & Hin). apply filter_In in Hin. exists line. tauto.
Qed.

Section Run.

Context {World Error : Type}.
Variable spawn : list jsstring -> World -> (Error + jsstring) * World.

Lemma forEachBranch_cons (b : jsstring) (bs acc : list jsstring)
  (w : World) :
  forEachBranch spawn (b :: bs) acc w =
  match fst (spawn (git :: branchArgs b) w) with
  | inl e =>
      mkRun (inl e) (snd (spawn (git :: branchArgs b) w))
        [(git :: branchArgs b, inl e)]
  | inr out =>
      mkRun
        (outcome (forEachBranch spawn bs (acc ++ linesOf out)
                    (snd (spawn (git :: branchArgs b) w))))
        (world (forEachBranch spawn bs (acc ++ linesOf out)
                  (snd (spawn (git :: branchArgs b) w))))
        ((git :: branchArgs b, inr out)
           :: trace (forEachBranch spawn bs (acc ++ linesOf out)
                       (snd (spawn (git :: branchArgs b) w))))
  end.
Proof.
  simpl. unfold bind, execa_sync. simpl.
  destruct (fst (spawn (git :: branchArgs b) w)); reflexivity.
Qed.

(** The loop only runs the duplicate-check queries of its branches. *)
Lemma forEachBranch_trace (bs acc : list jsstring) (w : World)
  (ev : Event Error) :
  In ev (trace (forEachBranch spawn bs acc w)) ->
  exists b o, In b bs /\ ev = (git :: branchArgs b, o).
Proof.
  revert acc w; induction bs as [|b bs IH]; intros acc w.
  - simpl. intros [].
  - rewrite forEachBranch_cons.
    destruct (fst (spawn (git :: branchArgs b) w)) as [e|out]; simpl.
    + intros [<-|[]]. exists b, (inl e). auto.
    + intros [<-|Hin].
      * exists b, (inr out). auto.
      * destruct (IH _ _ Hin) as (b' & o & Hb & ->).
        exists b', o. auto.
Qed.

(** When the loop ends normally every branch was queried, and the
    array holds what it held before and the non-blank lines of the
    answers. *)
Lemma forEachBranch_ok (bs acc targets : list jsstring) (w : World) :
  outcome (forEachBranch spawn bs acc w) = inr targets ->
  (forall b, In b bs ->
     exists out,
       In (git :: branchArgs b, inr out)
         (trace (forEachBranch spawn bs acc w)))
  /\ (forall s,
        In s targets <->
        In s acc \/
        exists b out,
          In b bs
          /\ In (git :: branchArgs b, inr out)
               (trace (forEachBranch spawn bs acc w))
          /\ In s (linesOf out)).
Proof.
  revert acc w; induction bs as [|b bs IH]; intros acc w.
  - simpl. intros [= <-]. split; [intros b []|].
    intros s. split; [auto|]. intros [H|(b & out & [] & _)]. assumption.
  - rewrite forEachBranch_cons.
    destruct (fst (spawn (git :: branchArgs b) w)) as [e|out];
      simpl; [discriminate|].
    intros Ho. destruct (IH _ _ Ho) as [Hall Hin]. split.
    + intros b' [<-|Hb'].
      * exists out. auto.
      * destruct (Hall _ Hb') as (out' & H'). exists out'. auto.
    + intros s. rewrite Hin, in_app_iff. split.
      * intros [[H|H]|(b' & out' & Hb' & Hev & Hs)].
        -- auto.
        -- right. exists b, out. auto.
        -- right. exists b', out'. auto.
      * intros [H|(b' & out' & Hb' & [Hev|Hev] & Hs)].
        -- auto.
        -- inversion Hev. subst. auto.
        -- right. exists b', out'.
           destruct (forEachBranch_trace _ _ _ _ Hev) as (b2 & o2 & Hb2 & E2).
           inversion E2. subst. auto.
Qed.

Lemma listCommits_cases (from to : jsstring) (bs : list jsstring)
  (w : World) :
  listCommits spawn from to bs w =
  match fst (spawn (git :: fetchArgs) w) with
  | inl e =>
      mkRun (inl e) (snd (spawn (git :: fetchArgs) w))
        [(git :: fetchArgs, inl e)]
  | inr o =>
      let r1 := forEachBranch spawn bs [] (snd (spawn (git :: fetchArgs) w)) in
      match outcome r1 with
      | inl e =>
          mkRun (inl e) (world r1) ((git :: fetchArgs, inr o) :: trace r1)
      | inr targetCommits =>
          let r2 := spawn (git :: rangeArgs from to) (world r1) in
          match fst r2 with
          | inl e =>
              mkRun (inl e) (snd r2)
                ((git :: fetchArgs, inr o)
                   :: trace r1 ++ [(git :: rangeArgs from to, inl e)])
          | inr stdout =>
              mkRun
                (inr (filter
                        (fun item =>
                           negb (includes targetCommits (summary item)))
                        (parseLog stdout)))
                (snd r2)
                ((git :: fetchArgs, inr o)
                   :: trace r1 ++ [(git :: rangeArgs from to, inr stdout)])
          end
      end
  end.
Proof.
  unfold listCommits, bind, execa_sync. simpl.
  destruct (fst (spawn (git :: fetchArgs) w)) as [e|o]; [reflexivity|].
  destruct (outcome (forEachBranch spawn bs [] _)) as [e|targets];
    [reflexivity|].
  simpl.
  destruct (fst (spawn (git :: rangeArgs from to) _)) as [e|stdout];
    simpl; rewrite ?app_nil_r; reflexivity.
Qed.

Lemma rangeArgs_not_fetch (from to : jsstring) :
  git :: rangeArgs from to <> git :: fetchArgs.
Proof. unfold rangeArgs, fetchArgs. congruence. Qed.

Lemma rangeArgs_not_branch (from to b : jsstring) :
  git :: rangeArgs from to <> git :: branchArgs b.
Proof. unfold rangeArgs, branchArgs. congruence. Qed.

Lemma branchArgs_not_fetch (b : jsstring) :
  git :: branchArgs b <> git :: fetchArgs.
Proof. unfold branchArgs, fetchArgs. congruence. Qed.

Lemma branchArgs_inj (b b' : jsstring) :
  git :: branchArgs b = git :: branchArgs b' -> b = b'.
Proof.
  unfold branchArgs. intros H. injection H as H. assumption.
Qed.

(** The shape of every invocation of [listCommits]: the fetch, then the
    duplicate-check queries, then the range query, up to the first
    failure; the result is read off the last answer. *)
Lemma listCommits_inv (from to : jsstring) (bs : list jsstring)
  (w : World) :
  exists o0 tr1,
    (forall ev, In ev tr1 ->
       exists b o, In b bs /\ ev = (git :: branchArgs b, o))
    /\ ((exists e,
           o0 = inl e
           /\ trace (listCommits spawn from to bs w)
              = [(git :: fetchArgs, o0)]
           /\ outcome (listCommits spawn from to bs w) = inl e)
        \/ (exists out0 e,
              o0 = inr out0
              /\ trace (listCommits spawn from to bs w)
                 = (git :: fetchArgs, o0) :: tr1
              /\ outcome (listCommits spawn from to bs w) = inl e)
        \/ (exists out0 targets o2,
              o0 = inr out0
              /\ trace (listCommits spawn from to bs w)
                 = (git :: fetchArgs, o0)
                     :: tr1 ++ [(git :: rangeArgs from to, o2)]
              /\ (forall b, In b bs ->
                    exists out, In (git :: branchArgs b, inr out) tr1)
              /\ (forall s,
                    In s targets <->
                    exists b out,
                      In b bs /\ In (git :: branchArgs b, inr out) tr1
                      /\ In s (linesOf out))
              /\ outcome (listCommits spawn from to bs w)
                 = match o2 with
                   | inl e => inl e
                   | inr raw =>
                       inr (filter
                              (fun item =>
                                 negb (includes targets (summary item)))
                              (parseLog raw))
                   end)).
Proof.
  rewrite listCommits_cases.
  exists (fst (spawn (git :: fetchArgs) w)).
  exists (trace (forEachBranch spawn bs []
                   (snd (spawn (git :: fetchArgs) w)))).
  split; [apply forEachBranch_trace|].
  destruct (fst (spawn (git :: fetchArgs) w)) as [e|out0].
  - left. exists e. auto.
  - cbv zeta.
    destruct (outcome (forEachBranch spawn bs [] _)) as [e|targets] eqn:E1.
    + right. left. exists out0, e. auto.
    + right. right.
      destruct (forEachBranch_ok _ _ _ _ E1) as [Hall Hin].
      exists out0, targets.
      exists (fst (spawn (git :: rangeArgs from to)
                     (world (forEachBranch spawn bs []
                               (snd (spawn (git :: fetchArgs) w)))))).
      split; [reflexivity|].
      split.
      { destruct (fst (spawn (git :: rangeArgs from to) _)); reflexivity. }
      split; [exact Hall|].
      split.
      { intros s. rewrite Hin. simpl. tauto. }
      destruct (fst (spawn (git :: rangeArgs from to) _)); reflexivity.
Qed.

(** Where a duplicate-check answer sits in the trace of [listCommits]. *)
Lemma branch_event_inside (from to b : jsstring) (o0 o2 o : Error + jsstring)
  (tr1 : list (Event Error)) :
  In (git :: branchArgs b, o)
    ((git :: fetchArgs, o0) :: tr1 ++ [(git :: rangeArgs from to, o2)])
  <-> In (git :: branchArgs b, o) tr1.
Proof.
  simpl. rewrite in_app_iff. simpl. split; [|auto].
  intros [H|[H|[H|[]]]]; [|assumption|]; exfalso; inversion H.
Qed.

Lemma range_event_fetch (from to : jsstring) (o o' : Error + jsstring) :
  (git :: fetchArgs, o') <> (git :: rangeArgs from to, o).
Proof. intros H. inversion H. Qed.

Lemma range_event_branch (from to b : jsstring) (o o' : Error + jsstring) :
  (git :: branchArgs b, o') <> (git :: rangeArgs from to, o).
Proof. intros H. inversion H. Qed.

(** The answer to the range query decides the result. *)
Lemma range_event (from to : jsstring) (bs : list jsstring) (w : World)
  (raw : jsstring) :
  In (git :: rangeArgs from to, inr raw)
    (trace (listCommits spawn from to bs w)) ->
  exists targets,
    (forall s,
       In s targets <->
       exists b out,
         In b bs
         /\ In (git :: branchArgs b, inr out)
              (trace (listCommits spawn from to bs w))
         /\ In s (linesOf out))
    /\ outcome (listCommits spawn from to bs w)
       = inr (filter
                (fun item => negb (includes targets (summary item)))
                (parseLog raw)).
Proof.
  destruct (listCommits_inv from to bs w) as (o0 & tr1 & Htr1 & Hc).
  destruct Hc as [(e & -> & Ht & Ho)|[(out0 & e & -> & Ht & Ho)
                 |(out0 & targets & o2 & -> & Ht & Hall & Hin & Ho)]];
    rewrite Ht; clear Ht.
  - intros [H|[]]. exfalso. exact (range_event_fetch _ _ _ _ H).
  - intros [H|H]; exfalso.
    + exact (range_event_fetch _ _ _ _ H).
    + destruct (Htr1 _ H) as (b & o & _ & E).
      symmetry in E. exact (range_event_branch _ _ _ _ _ E).
  - intros [H|H]; [exfalso; exact (range_event_fetch _ _ _ _ H)|].
    apply in_app_iff in H. destruct H as [H|[H|[]]].
    + exfalso. destruct (Htr1 _ H) as (b & o & _ & E).
      symmetry in E. exact (range_event_branch _ _ _ _ _ E).
    + inversion H. subst o2. exists targets. split; [|exact Ho].
      intros s. rewrite Hin. split.
      * intros (b & out & Hb & Hev & Hs). exists b, out.
        rewrite branch_event_inside. auto.
      * intros (b & out & Hb & Hev & Hs). exists b, out.
        rewrite branch_event_inside in Hev. auto.
Qed.

(** A result comes from an answer to the range query. *)
Lemma result_event (from to : jsstring) (bs : list jsstring) (w : World)
  (r : list CommitListItem) :
  outcome (listCommits spawn from to bs w) = inr r ->
  (exists raw,
     In (git :: rangeArgs from to, inr raw)
       (trace (listCommits spawn from to bs w)))
  /\ (forall b, In b bs ->
        exists out,
          In (git :: branchArgs b, inr out)
            (trace (listCommits spawn from to bs w))).
Proof.
  destruct (listCommits_inv from to bs w) as (o0 & tr1 & Htr1 & Hc).
  destruct Hc as [(e & -> & Ht & Ho)|[(out0 & e & -> & Ht & Ho)
                 |(out0 & targets & o2 & -> & Ht & Hall & Hin & Ho)]];
    rewrite Ht, Ho; clear Ht Ho; try discriminate.
  destruct o2 as [e|raw]; [discriminate|]. intros _. split.
  - exists raw. right. apply in_app_iff. right. left. reflexivity.
  - intros b Hb. destruct (Hall b Hb) as (out & Hout).
    exists out. apply branch_event_inside. assumption.
Qed.

(** When the duplicate-check queries leave the world as it is, the loop
    does too, and what it collects depends on the branches only as a
    set. *)
Lemma forEachBranch_readonly (bs : list jsstring) :
  (forall b w, In b bs -> snd (spawn (git :: branchArgs b) w) = w) ->
  forall (acc : list jsstring) (w : World),
    world (forEachBranch spawn bs acc w) = w
    /\ match outcome (forEachBranch spawn bs acc w) with
       | inr targets =>
           (forall b, In b bs ->
              exists out, fst (spawn (git :: branchArgs b) w) = inr out)
           /\ (forall s,
                 In s targets <->
                 In s acc \/
                 exists b out,
                   In b bs
                   /\ fst (spawn (git :: branchArgs b) w) = inr out
                   /\ In s (linesOf out))
       | inl _ =>
           exists b e,
             In b bs /\ fst (spawn (git :: branchArgs b) w) = inl e
       end.
Proof.
  induction bs as [|b bs IH]; intros Hro acc w.
  - simpl. split; [reflexivity|]. split; [intros b []|].
    intros s. split; [auto|]. intros [H|(b & out & [] & _)]. assumption.
  - rewrite forEachBranch_cons.
    assert (Hb : snd (spawn (git :: branchArgs b) w) = w)
      by (apply Hro; left; reflexivity).
    assert (Hro' : forall b' w',
               In b' bs -> snd (spawn (git :: branchArgs b') w') = w')
      by (intros b' w' Hin; apply Hro; right; exact Hin).
    destruct (fst (spawn (git :: branchArgs b) w)) as [e|out] eqn:Eb.
    + simpl. split; [exact Hb|]. exists b, e. auto.
    + rewrite Hb. simpl.
      destruct (IH Hro' (acc ++ linesOf out) w) as [Hw Ho].
      split; [exact Hw|].
      destruct (outcome (forEachBranch spawn bs (acc ++ linesOf out) w))
        as [e'|targets].
      * destruct Ho as (b' & e2 & Hb' & E'). exists b', e2. auto.
      * destruct Ho as [Hall Hin]. split.
        -- intros b' [<-|Hb']; [exists out; exact Eb | auto].
        -- intros s. rewrite Hin, in_app_iff. split.
           ++ intros [[H|H]|(b' & out' & Hb' & E' & Hs)].
              ** auto.
              ** right. exists b, out. auto.
              ** right. exists b', out'. auto.
           ++ intros [H|(b' & out' & [<-|Hb'] & E' & Hs)].
              ** auto.
              ** rewrite Eb in E'. injection E' as <-. auto.
              ** right. exists b', out'. auto.
Qed.

End Run.

End GitFacts.

Import GitFacts.

(** ** Lines of an output, and the line a record is read from *)

Module LinesFacts.

Local Arguments N.eqb : simpl never.

Lemma split_app (sep : char) (a b : jsstring) :
  split sep (a ++ sep :: b) = split sep a ++ split sep b.
Proof.
  induction a as [|c a IH]; simpl.
  - rewrite N.eqb_refl. reflexivity.
  - destruct (c =? sep); [rewrite IH; reflexivity|].
    rewrite IH. pose proof (split_not_nil sep a) as Hn.
    destruct (split sep a) as [|l ls]; [contradiction | reflexivity].
Qed.

Lemma split_single (sep : char) (l : jsstring) :
  ~ In sep l -> split sep l = [l].
Proof.
  induction l as [|c l IH]; simpl; intros Hl; [reflexivity|].
  destruct (c =? sep) eqn:E.
  - apply N.eqb_eq in E. exfalso. apply Hl. left. exact E.
  - rewrite IH; [reflexivity|]. intros Hin. apply Hl. right. exact Hin.
Qed.

(** [split] is the inverse of [join] on texts without separator. *)
Lemma split_join (sep : char) (ls : list jsstring) :
  ls <> [] -> Forall (fun l => ~ In sep l) ls ->
  split sep (join sep ls) = ls.
Proof.
  induction ls as [|l ls IH]; intros Hn Hf; [contradiction|].
  inversion Hf as [|? ? Hl Hls]; subst.
  destruct ls as [|l' ls'].
  - simpl. apply split_single. exact Hl.
  - change (join sep (l :: l' :: ls'))
      with (l ++ sep :: join sep (l' :: ls')).
    rewrite split_app, (split_single _ _ Hl), IH;
      [reflexivity | discriminate | exact Hls].
Qed.

Lemma Lines_intro (out : jsstring) (ls : list jsstring) :
  join LF ls = out -> ls <> [] ->
  forallb (fun l => negb (occurs LF l)) ls = true -> Lines out ls.
Proof.
  intros E Hn Hf. split; [exact E|]. split; [exact Hn|].
  apply Forall_forall. intros l Hl Hin.
  rewrite forallb_forall in Hf. specialize (Hf l Hl).
  apply negb_true_iff in Hf. unfold occurs in Hf.
  assert (Ht : existsb (N.eqb LF) l = true)
    by (apply existsb_exists; exists LF; split;
        [exact Hin | apply N.eqb_refl]).
  congruence.
Qed.

Lemma Lines_split (out : jsstring) : Lines out (split LF out).
Proof.
  split; [apply join_split|]. split; [apply split_not_nil|].
  apply Forall_forall. intros l Hl. exact (split_no_sep _ _ _ Hl).
Qed.

(** An output has one sequence of lines, the one [split] computes. *)
Lemma Lines_unique (out : jsstring) (ls : list jsstring) :
  Lines out ls -> ls = split LF out.
Proof.
  intros (E & Hn & Hf). rewrite <- E. symmetry. apply split_join; assumption.
Qed.

Lemma lineOf_split (l out : jsstring) :
  lineOf l out <-> In l (split LF out).
Proof.
  split.
  - intros (ls & Hls & Hin). rewrite <- (Lines_unique _ _ Hls). exact Hin.
  - intros Hin. exists (split LF out). split; [apply Lines_split|exact Hin].
Qed.

Lemma linesOf_lineOf (s out : jsstring) :
  In s (linesOf out) <-> lineOf s out /\ s <> [].
Proof.
  unfold linesOf. rewrite filter_In, lineOf_split, Boolean_nonBlank.
  reflexivity.
Qed.

(** A structured line whose fields hold no delimiter contains the format
    once, with its own fields. *)
Lemma serialize_own (own item : CommitListItem) (pre post : jsstring) :
  delimiterFree own = true ->
  serialize own = pre ++ serialize item ++ post -> item = own.
Proof.
  unfold delimiterFree. rewrite andb_true_iff.
  intros [Hlt Hgt] E.
  destruct (serialize_reading _ _ _ _ Hgt E) as (Es & Er & Em & Ed & _).
  apply freeOf_fields in Hlt. destruct Hlt as (Hs & _).
  assert (Hcount :
            List.length (filter (N.eqb LT) (hashOpen ++ sha own)) =
            List.length (filter (N.eqb LT) (pre ++ hashOpen ++ sha item)))
    by (rewrite Es; reflexivity).
  rewrite !filter_app, !length_app in Hcount.
  change (List.length (filter (N.eqb LT) hashOpen)) with 1%nat in Hcount.
  apply occurs_count in Hs. pose proof Hs as Hs0.
  apply occurs_count in Hs0.
  assert (Hp : occurs LT pre = false)
    by (apply occurs_count; unfold jsstring, char in *; lia).
  assert (Hs' : occurs LT (sha item) = false)
    by (apply occurs_count; unfold jsstring, char in *; lia).
  assert (Es' : removelast hashOpen ++ LT :: sha own =
                (pre ++ removelast hashOpen) ++ LT :: sha item)
    by (rewrite <- app_assoc; exact Es).
  apply break_unique in Es'.
  2:{ reflexivity. }
  2:{ apply occurs_app. split; [assumption | reflexivity]. }
  destruct Es' as [_ Es'].
  destruct own as [s r m d], item as [s' r' m' d'].
  simpl in *. subst. reflexivity.
Qed.

(** What [parseLogMessage] returns for a line is read from the line. *)
Lemma parse_readsFrom (line : jsstring) (item : CommitListItem) :
  parseLogMessage line = Some item -> readsFrom line item.
Proof.
  intros Hp.
  destruct (parseLogMessage_sound _ _ Hp) as (pre & post & E & Hok).
  split; [exists pre, post; exact E|]. split; [exact Hok|].
  intros own Eo Hfree. rewrite Eo in E.
  exact (serialize_own _ _ _ _ Hfree E).
Qed.

(** The parsing chain of [listCommits], on the lines of the output. *)
Lemma parseLog_lines (raw : jsstring) :
  exists lines kept,
    Lines raw lines
    /\ Selects formatOccurs lines kept
    /\ Forall2 readsFrom kept (parseLog raw).
Proof.
  destruct (parse_lines (split LF raw)) as (kept & Hsel & Hf2).
  exists (split LF raw), kept.
  split; [apply Lines_split|]. split; [exact Hsel|].
  revert Hf2. apply Forall2_impl. exact parse_readsFrom.
Qed.

(** A structured line that the format can carry yields its record. *)
Lemma parseLog_carried (raw : jsstring) (item : CommitListItem) :
  lineOf (serialize item) raw ->
  fieldsOk item = true -> delimiterFree item = true ->
  In item (parseLog raw).
Proof.
  intros Hl Hok Hfree. apply lineOf_split in Hl.
  unfold delimiterFree in Hfree. apply andb_true_iff in Hfree.
  pose proof (parseLogMessage_serialize _ Hok (proj2 Hfree)) as Hp.
  unfold parseLog. apply filterObj_In. apply in_map_iff.
  exists (serialize item). split; [exact Hp|].
  apply filter_In. split; [exact Hl|].
  unfold serialize. reflexivity.
Qed.

(** The array that the duplicate-check loop collects holds the summaries
    of the listed branches that are not blank. *)
Lemma targets_branchSummary {Error : Type} (tr : list (Event Error))
  (bs targets : list jsstring) :
  (forall s,
     In s targets <->
     exists b out,
       In b bs /\ In (git :: branchArgs b, inr out) tr
       /\ In s (linesOf out)) ->
  forall s, In s targets <-> branchSummary tr bs s /\ s <> [].
Proof.
  intros Ht s. rewrite Ht. unfold branchSummary. split.
  - intros (b & out & Hb & Hev & Hs). apply linesOf_lineOf in Hs.
    destruct Hs as [Hl Hn]. split; [|exact Hn]. exists b, out. auto.
  - intros [(b & out & Hb & Hev & Hl) Hn]. exists b, out.
    rewrite linesOf_lineOf. auto.
Qed.

End LinesFacts.

Import LinesFacts.

(** ** Properties of the commit-history reader *)

Module Properties.

Section Reader.

Context {World Error : Type}.
Variable spawn : list jsstring -> World -> (Error + jsstring) * World.

(** C1, as amended.  No record that [listCommits] returns with a summary
    that is not blank has the summary of a line printed for a range
    [origin/master..origin/<branch>] of a listed branch.  Every listed
    branch is queried, and the filter looks at the summary text alone: the
    result is the parsed range output filtered by a test [keep] on
    summaries, which rejects exactly the lines of the branch ranges that
    are not blank. *)
Theorem listCommits_excludes_nonblank_branch_summaries
  (from to : jsstring) (bs : list jsstring) (w : World)
  (r : list CommitListItem) :
  outcome (listCommits spawn from to bs w) = inr r ->
  (forall b, In b bs ->
     exists out,
       In (git :: branchArgs b, inr out)
         (trace (listCommits spawn from to bs w)))
  /\ (forall item, In item r -> summary item <> [] ->
        ~ branchSummary (trace (listCommits spawn from to bs w)) bs
            (summary item))
  /\ (exists raw keep,
        In (git :: rangeArgs from to, inr raw)
          (trace (listCommits spawn from to bs w))
        /\ (forall s,
              keep s = false <->
              branchSummary (trace (listCommits spawn from to bs w)) bs s
              /\ s <> [])
        /\ r = filter (fun item => keep (summary item)) (parseLog raw)).
Proof.
  intros Hr.
  destruct (result_event spawn _ _ _ _ _ Hr) as [(raw & Hraw) Hall].
  destruct (range_event spawn _ _ _ _ _ Hraw) as (targets & Ht & Ho).
  pose proof (targets_branchSummary _ _ _ Ht) as Hts.
  rewrite Hr in Ho. injection Ho as ->.
  split; [exact Hall|]. split.
  - intros item Hin Hne Hbs. apply filter_In in Hin.
    destruct Hin as [_ Hk]. apply negb_true_iff, includes_false in Hk.
    apply Hk, Hts. auto.
  - exists raw, (fun s => negb (includes targets s)).
    split; [exact Hraw|]. split; [|reflexivity].
    intros s. rewrite negb_false_iff, includes_In. apply Hts.
Qed.

(** C2, as amended.  Once the range query has answered, [listCommits]
    returns and raises nothing.  The parsed result holds one record for
    each line of the answer in which the structured format occurs, in the
    order of the lines, and nothing for any other line; each record is read
    from its line, and a structured line whose fields hold no delimiter, no
    line terminator and a hash yields its own record.  What is returned is
    the parsed result without the summaries of the branch ranges that are
    not blank, and all of it when no branch is listed. *)
Theorem listCommits_keeps_lines_with_format
  (from to : jsstring) (bs : list jsstring) (w : World) (raw : jsstring) :
  In (git :: rangeArgs from to, inr raw)
    (trace (listCommits spawn from to bs w)) ->
  exists lines kept parsed r,
    Lines raw lines
    /\ Selects formatOccurs lines kept
    /\ Forall2 readsFrom kept parsed
    /\ (forall item,
          In (serialize item) lines ->
          fieldsOk item = true -> delimiterFree item = true ->
          In item parsed)
    /\ outcome (listCommits spawn from to bs w) = inr r
    /\ Selects
         (fun item =>
            ~ (branchSummary (trace (listCommits spawn from to bs w)) bs
                 (summary item)
               /\ summary item <> []))
         parsed r
    /\ (bs = [] -> r = parsed).
Proof.
  intros Hraw.
  destruct (range_event spawn _ _ _ _ _ Hraw) as (targets & Ht & Ho).
  pose proof (targets_branchSummary _ _ _ Ht) as Hts.
  destruct (parseLog_lines raw) as (lines & kept & Hl & Hsel & Hf2).
  exists lines, kept, (parseLog raw).
  exists (filter (fun item => negb (includes targets (summary item)))
            (parseLog raw)).
  split; [exact Hl|]. split; [exact Hsel|]. split; [exact Hf2|].
  split.
  { intros item Hin Hok Hfree. apply parseLog_carried; try assumption.
    exists lines. auto. }
  split; [exact Ho|]. split.
  - apply Selects_filter. intros item.
    rewrite negb_true_iff, includes_false, Hts. reflexivity.
  - intros ->. apply filter_no_targets.
    intros s Hs. apply Hts in Hs. destruct Hs as [(b & _ & [] & _) _].
Qed.

(** C5, as amended.  Every record that [listCommits] returns was parsed
    from a line of the range output in which the structured format
    occurs, possibly with text before and after it, with the record's
    four values between the markers; the hash is not empty and no field
    holds a line terminator. *)
Theorem listCommits_records_from_matching_lines
  (from to : jsstring) (bs : list jsstring) (w : World)
  (r : list CommitListItem) (item : CommitListItem) :
  outcome (listCommits spawn from to bs w) = inr r ->
  In item r ->
  exists raw line pre post,
    In (git :: rangeArgs from to, inr raw)
      (trace (listCommits spawn from to bs w))
    /\ In line (split LF raw)
    /\ parseLogMessage line = Some item
    /\ line = pre ++ serialize item ++ post
    /\ fieldsOk item = true.
Proof.
  intros Hr Hin.
  destruct (result_event spawn _ _ _ _ _ Hr) as [(raw & Hraw) _].
  destruct (range_event spawn _ _ _ _ _ Hraw) as (targets & _ & Ho).
  rewrite Hr in Ho. injection Ho as ->.
  apply filter_In in Hin. destruct Hin as [Hin _].
  destruct (parseLog_In _ _ Hin) as (line & Hline & Hp).
  destruct (parseLogMessage_sound _ _ Hp) as (pre & post & E & Hok).
  exists raw, line, pre, post. auto.
Qed.


(** C8.  When the range query prints nothing, [listCommits] returns the
    empty sequence and raises nothing. *)
Theorem listCommits_empty_range
  (from to : jsstring) (bs : list jsstring) (w : World) :
  In (git :: rangeArgs from to, inr [])
    (trace (listCommits spawn from to bs w)) ->
  outcome (listCommits spawn from to bs w) = inr [].
Proof.
  intros Hraw.
  destruct (range_event spawn _ _ _ _ _ Hraw) as (targets & _ & Ho).
  exact Ho.
Qed.

(** C10.  Every invocation of [listCommits] starts with the fetch and
    runs it once: the first process of its trace is [git fetch], whether
    it succeeds or fails, and no later one is. *)
Theorem listCommits_fetches_once_first
  (from to : jsstring) (bs : list jsstring) (w : World) :
  exists o rest,
    trace (listCommits spawn from to bs w) = (git :: fetchArgs, o) :: rest
    /\ Forall (fun ev => fst ev <> git :: fetchArgs) rest.
Proof.
  destruct (listCommits_inv spawn from to bs w) as (o0 & tr1 & Htr1 & Hc).
  assert (Hb : Forall (fun ev : Event Error => fst ev <> git :: fetchArgs)
                 tr1).
  { apply Forall_forall. intros ev Hev.
    destruct (Htr1 _ Hev) as (b & o & _ & ->). simpl.
    apply branchArgs_not_fetch. }
  destruct Hc as [(e & -> & Ht & Ho)|[(out0 & e & -> & Ht & Ho)
                 |(out0 & targets & o2 & -> & Ht & _)]];
    rewrite Ht; eexists; eexists; (split; [reflexivity|]).
  - constructor.
  - exact Hb.
  - apply Forall_app. split; [exact Hb|].
    constructor; [|constructor]. simpl. apply rangeArgs_not_fetch.
Qed.

(** C7.  The order of the duplicate-check branches does not matter.
    When the duplicate-check queries of the listed branches leave the world
    as it is, so that each of them answers the same whatever the order, two
    branch lists that are permutations of each other make [listCommits]
    return the same sequence, or fail both. *)
Theorem listCommits_branch_order_irrelevant
  (from to : jsstring) (bs bs' : list jsstring) (w : World) :
  (forall b w', In b bs -> snd (spawn (git :: branchArgs b) w') = w') ->
  Permutation bs bs' ->
  match outcome (listCommits spawn from to bs w),
        outcome (listCommits spawn from to bs' w) with
  | inr r, inr r' => r = r'
  | inl _, inl _ => True
  | _, _ => False
  end.
Proof.
  intros Hro Hperm. rewrite !listCommits_cases.
  assert (Hro' : forall b w',
             In b bs' -> snd (spawn (git :: branchArgs b) w') = w').
  { intros b w' Hb. apply Hro.
    exact (Permutation_in _ (Permutation_sym Hperm) Hb). }
  destruct (fst (spawn (git :: fetchArgs) w)) as [e|o]; [exact I|].
  cbv zeta.
  destruct (forEachBranch_readonly spawn bs Hro []
              (snd (spawn (git :: fetchArgs) w))) as [Hw Ho].
  destruct (forEachBranch_readonly spawn bs' Hro' []
              (snd (spawn (git :: fetchArgs) w))) as [Hw' Ho'].
  rewrite Hw, Hw'.
  destruct (outcome (forEachBranch spawn bs [] _)) as [e|targets];
    destruct (outcome (forEachBranch spawn bs' [] _)) as [e'|targets'].
  - exact I.
  - simpl. destruct Ho as (b & e1 & Hb & E). destruct Ho' as [Hall _].
    destruct (Hall b (Permutation_in _ Hperm Hb)) as (out & E').
    congruence.
  - simpl. destruct Ho' as (b & e1 & Hb & E). destruct Ho as [Hall _].
    destruct (Hall b (Permutation_in _ (Permutation_sym Hperm) Hb))
      as (out & E').
    congruence.
  - destruct Ho as [_ Hin]. destruct Ho' as [_ Hin'].
    destruct (fst (spawn (git :: rangeArgs from to) _)) as [e|raw];
      simpl; [exact I|].
    apply filter_ext. intros item. f_equal.
    assert (Hsame : forall s, In s targets <-> In s targets').
    { intros s. rewrite Hin, Hin'. split.
      - intros [[]|(b & out & Hb & E & Hs)]. right. exists b, out.
        split; [exact (Permutation_in _ Hperm Hb) | auto].
      - intros [[]|(b & out & Hb & E & Hs)]. right. exists b, out.
        split; [exact (Permutation_in _ (Permutation_sym Hperm) Hb)|auto]. }
    destruct (includes targets (summary item)) eqn:E1;
      destruct (includes targets' (summary item)) eqn:E2;
      try reflexivity.
    + apply includes_In, Hsame, includes_In in E1. congruence.
    + apply includes_In, Hsame, includes_In in E2. congruence.
Qed.

(** C9.  When [git tag] answers, [listTagNames] returns the lines of the
    answer without the blank ones.  The lines are the texts without line
    feed that, joined with line feeds, make the answer; no returned name is
    empty, the names are the lines that are not blank in the order of the
    answer, and a text is returned exactly when it is such a line. *)
Theorem listTagNames_lists_nonblank_lines (w : World) (out : jsstring) :
  fst (spawn (git :: tagArgs) w) = inr out ->
  exists lines tags,
    Lines out lines
    /\ outcome (listTagNames spawn w) = inr tags
    /\ ~ In [] tags
    /\ Selects nonBlank lines tags
    /\ (forall l, In l tags <-> lineOf l out /\ l <> []).
Proof.
  intros Hout.
  exists (split LF out), (filter Boolean (split LF out)).
  assert (Hsel : Selects nonBlank (split LF out)
                   (filter Boolean (split LF out)))
    by (apply Selects_filter, Boolean_nonBlank).
  split; [apply Lines_split|]. split.
  - unfold listTagNames, bind, execa_sync. simpl. rewrite Hout. reflexivity.
  - split.
    + intros Hin. apply filter_In in Hin. destruct Hin as [_ Hb].
      discriminate.
    + split; [exact Hsel|]. intros l. rewrite lineOf_split.
      apply (Selects_In _ _ _ Hsel).
Qed.

(** [changedPaths] returns every line of the output of [git show]. *)
Lemma changedPaths_lines (sha : jsstring) (w : World) (out : jsstring) :
  fst (spawn (git :: showArgs sha) w) = inr out ->
  outcome (changedPaths spawn sha w) = inr (split LF out).
Proof.
  intros Hout. unfold changedPaths, bind, execa_sync. simpl.
  rewrite Hout. reflexivity.
Qed.

End Reader.

(** C3, on the code.  For a commit that touched no file [git show] prints
    nothing, and [changedPaths] returns a sequence of one empty string,
    not the empty sequence: unlike [listTagNames] and [listCommits] it does
    not filter the lines with [Boolean]. *)
Theorem changedPaths_keeps_blank_line :
  fst (Scripted.spawn Scripted.repo (git :: showArgs (lit "abc123")) tt)
  = inr []
  /\ outcome (changedPaths (Scripted.spawn Scripted.repo) (lit "abc123") tt)
     = inr [[]].
Proof. split; reflexivity. Qed.

(** C1, as stated, fails: a commit without subject that is on a listed
    branch and in the range is returned.  The query of the branch prints
    two blank summaries, the range holds a commit whose summary is blank,
    and [listCommits] returns its record. *)
Lemma listCommits_returns_blank_branch_summary :
  outcome (listCommits (Scripted.spawn Cases.blankRepo)
             Scripted.v1 Scripted.v2 [Scripted.release] tt)
  = inr [Cases.blankSubject]
  /\ In (git :: branchArgs Scripted.release, inr [LF])
       (trace (listCommits (Scripted.spawn Cases.blankRepo)
                 Scripted.v1 Scripted.v2 [Scripted.release] tt))
  /\ Lines [LF] [[]; []]
  /\ branchSummary
       (trace (listCommits (Scripted.spawn Cases.blankRepo)
                 Scripted.v1 Scripted.v2 [Scripted.release] tt))
       [Scripted.release] (summary Cases.blankSubject).
Proof.
  assert (Hev : In (git :: branchArgs Scripted.release, inr [LF])
                  (trace (listCommits (Scripted.spawn Cases.blankRepo)
                            Scripted.v1 Scripted.v2 [Scripted.release] tt)))
    by (right; left; reflexivity).
  assert (Hl : Lines [LF] [[]; []])
    by (apply Lines_intro; [reflexivity | discriminate | reflexivity]).
  split; [reflexivity|]. split; [exact Hev|]. split; [exact Hl|].
  exists Scripted.release, [LF].
  split; [left; reflexivity|]. split; [exact Hev|].
  exists [[]; []]. split; [exact Hl | left; reflexivity].
Qed.

(** C2, as stated, fails in both halves.  The range output below has two
    lines.  The first is not a structured line, since text surrounds the
    format in it, and a record is returned for it; the second is a
    well-formed structured line without delimiter in its fields, whose
    subject holds a line separator (U+2028), and nothing is returned for
    it. *)
Lemma listCommits_loses_well_formed_line :
  fst (Scripted.spawn Lost.mixed
         (git :: rangeArgs Scripted.v1 Scripted.v2) tt)
  = inr Lost.mixedOut
  /\ Lines Lost.mixedOut [Scripted.noisyOut; Lost.lostLine]
  /\ ~ wellFormed Scripted.noisyOut
  /\ wellFormed Lost.lostLine
  /\ outcome (listCommits (Scripted.spawn Lost.mixed)
                Scripted.v1 Scripted.v2 [] tt)
     = inr [Scripted.noisyFix]
  /\ ~ readsWellFormed [Scripted.noisyOut; Lost.lostLine]
        [Scripted.noisyFix].
Proof.
  assert (Hnoisy : ~ wellFormed Scripted.noisyOut).
  { intros (item & E & _). unfold serialize in E. discriminate E. }
  assert (Hlost : wellFormed Lost.lostLine).
  { exists Lost.lostItem. repeat split; reflexivity. }
  split; [reflexivity|]. split.
  { apply Lines_intro; [reflexivity | discriminate | reflexivity]. }
  split; [exact Hnoisy|]. split; [exact Hlost|]. split; [reflexivity|].
  intros (kept & Hsel & Hf2).
  inversion Hsel as [|? ? ? Hw Hs|? ? ? Hw Hs]; subst.
  - exact (Hnoisy Hw).
  - inversion Hs as [|? ? ? Hw' Hs'|? ? ? Hw' Hs']; subst.
    + inversion Hs'; subst.
      inversion Hf2 as [|? ? ? ? E Hrest]; subst.
      vm_compute in E. discriminate E.
    + exact (Hw' Hlost).
Qed.

(** C4, as stated, fails: the line of a commit whose subject holds a line
    separator (U+2028) is a structured line with a hash and without
    delimiter in its fields, and [parseLogMessage] returns [null] for
    it. *)
Lemma parseLogMessage_loses_line_separator :
  serialize Lost.lostItem = Lost.lostLine
  /\ wellFormed Lost.lostLine
  /\ Boolean (sha Lost.lostItem) = true
  /\ delimiterFree Lost.lostItem = true
  /\ parseLogMessage Lost.lostLine = None.
Proof.
  split; [reflexivity|]. split.
  { exists Lost.lostItem. repeat split; reflexivity. }
  repeat split; reflexivity.
Qed.

(** C4, as amended.  For every structured line whose four field values
    contain no field delimiter, parsing gives the four values back, and
    serializing the parsed record with the same markers gives the line
    back, when the hash is not empty and no field holds a line terminator;
    otherwise [parseLogMessage] returns [null]. *)
Theorem parse_serialize_roundtrip_carried (item : CommitListItem) :
  delimiterFree item = true ->
  (fieldsOk item = true ->
   parseLogMessage (serialize item) = Some item
   /\ option_map serialize (parseLogMessage (serialize item))
      = Some (serialize item))
  /\ (fieldsOk item = false -> parseLogMessage (serialize item) = None).
Proof.
  intros Hfree. split.
  - intros Hok. unfold delimiterFree in Hfree.
    apply andb_true_iff in Hfree.
    rewrite (parseLogMessage_serialize _ Hok (proj2 Hfree)).
    split; reflexivity.
  - intros Hbad.
    destruct (parseLogMessage (serialize item)) as [item'|] eqn:E;
      [|reflexivity].
    assert (Hm : formatOccurs (serialize item))
      by (apply parseLogMessage_matches; congruence).
    rewrite (formatOccurs_fieldsOk _ Hfree Hm) in Hbad. discriminate.
Qed.

(** The example scenario of C4: the raw line of the specification parses
    to its four values. *)
Lemma parse_serialize_roundtrip_carried_example :
  delimiterFree Scripted.exampleItem = true
  /\ fieldsOk Scripted.exampleItem = true
  /\ serialize Scripted.exampleItem = Scripted.exampleLine
  /\ parseLogMessage Scripted.exampleLine = Some Scripted.exampleItem
  /\ option_map serialize (parseLogMessage Scripted.exampleLine)
     = Some Scripted.exampleLine.
Proof.
  split; [reflexivity|]. split; [reflexivity|]. split; [reflexivity|].
  exact (proj1 (parse_serialize_roundtrip_carried Scripted.exampleItem
                  eq_refl) eq_refl).
Defined.


(** C5, as stated, fails: a record is produced from a line that only
    contains the structured format amid other text.  The only line of the
    range output below starts with an asterisk and ends after the last
    marker, and [listCommits] returns a record for it. *)
Lemma listCommits_record_from_noisy_line :
  fst (Scripted.spawn Scripted.noisy
         (git :: rangeArgs Scripted.v1 Scripted.v2) tt)
  = inr Scripted.noisyOut
  /\ split LF Scripted.noisyOut = [Scripted.noisyOut]
  /\ ~ conformsEntirely Scripted.noisyOut
  /\ outcome (listCommits (Scripted.spawn Scripted.noisy)
                Scripted.v1 Scripted.v2 [] tt)
     = inr [Scripted.noisyFix].
Proof.
  split; [reflexivity|]. split; [reflexivity|]. split; [|reflexivity].
  intros (item & E & _). unfold serialize in E. discriminate E.
Qed.

(** The same happens on output that [git log] can print: the subject of the
    only commit holds a line separator, which the dot does not match, and
    then the text of a log line.  The record returned is made of the text
    inside the subject. *)
Example listCommits_record_from_quoted_subject :
  split LF Scripted.quotedOut = [Scripted.quotedOut]
  /\ ~ conformsEntirely Scripted.quotedOut
  /\ outcome (listCommits (Scripted.spawn Scripted.quoted)
                Scripted.v1 Scripted.v2 [] tt)
     = inr [Scripted.quotedFix].
Proof.
  split; [reflexivity|]. split; [|reflexivity].
  intros H. apply conformsEntirely_no_separator in H. discriminate H.
Qed.

(** *** The properties at work on the scripted repository *)

Import Scripted.

Lemma listCommits_excludes_nonblank_branch_summaries_witness :
  outcome (listCommits (spawn repo) v1 v2 [release] tt)
  = inr [fixBug; addDocs]
  /\ In (git :: branchArgs release, inr releaseOut)
       (trace (listCommits (spawn repo) v1 v2 [release] tt))
  /\ Lines releaseOut [releaseOut]
  /\ forall item, In item [fixBug; addDocs] -> summary item <> releaseOut.
Proof.
  assert (H : outcome (listCommits (spawn repo) v1 v2 [release] tt)
              = inr [fixBug; addDocs]) by reflexivity.
  assert (Hev : In (git :: branchArgs release, inr releaseOut)
                  (trace (listCommits (spawn repo) v1 v2 [release] tt)))
    by (right; left; reflexivity).
  assert (Hl : Lines releaseOut [releaseOut])
    by (apply Lines_intro; [reflexivity | discriminate | reflexivity]).
  split; [exact H|]. split; [exact Hev|]. split; [exact Hl|].
  destruct (listCommits_excludes_nonblank_branch_summaries
              (spawn repo) v1 v2 [release] tt [fixBug; addDocs] H)
    as (_ & Hex & _).
  intros item Hin Heq. apply (Hex item Hin).
  - rewrite Heq. discriminate.
  - rewrite Heq. exists release, releaseOut.
    split; [left; reflexivity|]. split; [exact Hev|].
    exists [releaseOut]. split; [exact Hl | left; reflexivity].
Defined.

Lemma listCommits_keeps_lines_with_format_witness :
  In (git :: rangeArgs v1 v2, inr rangeOut)
    (trace (listCommits (spawn repo) v1 v2 [release] tt))
  /\ outcome (listCommits (spawn repo) v1 v2 [release] tt)
     = inr [fixBug; addDocs]
  /\ exists lines kept parsed r,
       Lines rangeOut lines
       /\ Selects formatOccurs lines kept
       /\ Forall2 readsFrom kept parsed
       /\ (forall item,
             In (serialize item) lines ->
             fieldsOk item = true -> delimiterFree item = true ->
             In item parsed)
       /\ outcome (listCommits (spawn repo) v1 v2 [release] tt) = inr r
       /\ Selects
            (fun item =>
               ~ (branchSummary
                    (trace (listCommits (spawn repo) v1 v2 [release] tt))
                    [release] (summary item)
                  /\ summary item <> []))
            parsed r
       /\ ([release] = [] -> r = parsed).
Proof.
  assert (H : In (git :: rangeArgs v1 v2, inr rangeOut)
                (trace (listCommits (spawn repo) v1 v2 [release] tt)))
    by (right; right; left; reflexivity).
  split; [exact H|]. split; [reflexivity|].
  exact (listCommits_keeps_lines_with_format
           (spawn repo) v1 v2 [release] tt rangeOut H).
Defined.

Lemma listCommits_records_from_matching_lines_witness :
  outcome (listCommits (spawn noisy) v1 v2 [] tt) = inr [noisyFix]
  /\ In noisyFix [noisyFix]
  /\ exists raw line pre post,
       In (git :: rangeArgs v1 v2, inr raw)
         (trace (listCommits (spawn noisy) v1 v2 [] tt))
       /\ In line (split LF raw)
       /\ parseLogMessage line = Some noisyFix
       /\ line = pre ++ serialize noisyFix ++ post
       /\ fieldsOk noisyFix = true.
Proof.
  assert (H : outcome (listCommits (spawn noisy) v1 v2 [] tt)
              = inr [noisyFix]) by reflexivity.
  assert (Hin : In noisyFix [noisyFix]) by (left; reflexivity).
  split; [exact H|]. split; [exact Hin|].
  exact (listCommits_records_from_matching_lines
           (spawn noisy) v1 v2 [] tt [noisyFix] noisyFix H Hin).
Defined.


Lemma listCommits_branch_order_irrelevant_witness :
  (forall b w',
     In b [release; hotfix] ->
     snd (spawn repo (git :: branchArgs b) w') = w')
  /\ Permutation [release; hotfix] [hotfix; release]
  /\ match outcome (listCommits (spawn repo) v1 v2 [release; hotfix] tt),
           outcome (listCommits (spawn repo) v1 v2 [hotfix; release] tt)
     with
     | inr r, inr r' => r = r'
     | inl _, inl _ => True
     | _, _ => False
     end.
Proof.
  assert (Hro : forall b w',
             In b [release; hotfix] ->
             snd (spawn repo (git :: branchArgs b) w') = w').
  { intros b w' _. unfold spawn.
    destruct (lookup (git :: branchArgs b) repo); reflexivity. }
  assert (Hp : Permutation [release; hotfix] [hotfix; release])
    by apply perm_swap.
  split; [exact Hro|]. split; [exact Hp|].
  exact (listCommits_branch_order_irrelevant
           (spawn repo) v1 v2 [release; hotfix] [hotfix; release] tt Hro Hp).
Defined.

Lemma listCommits_empty_range_witness :
  In (git :: rangeArgs v2 v2, inr [])
    (trace (listCommits (spawn repo) v2 v2 [release] tt))
  /\ outcome (listCommits (spawn repo) v2 v2 [release] tt) = inr [].
Proof.
  assert (H : In (git :: rangeArgs v2 v2, inr [])
                (trace (listCommits (spawn repo) v2 v2 [release] tt)))
    by (right; right; left; reflexivity).
  split; [exact H|].
  exact (listCommits_empty_range (spawn repo) v2 v2 [release] tt H).
Defined.

Lemma listTagNames_lists_nonblank_lines_witness :
  fst (spawn Cases.gappedTags (git :: tagArgs) tt)
  = inr Cases.gappedTagOut
  /\ Lines Cases.gappedTagOut [v1; []; v2]
  /\ outcome (listTagNames (spawn Cases.gappedTags) tt) = inr [v1; v2]
  /\ exists lines tags,
       Lines Cases.gappedTagOut lines
       /\ outcome (listTagNames (spawn Cases.gappedTags) tt) = inr tags
       /\ ~ In [] tags
       /\ Selects nonBlank lines tags
       /\ (forall l,
             In l tags <-> lineOf l Cases.gappedTagOut /\ l <> []).
Proof.
  assert (H : fst (spawn Cases.gappedTags (git :: tagArgs) tt)
              = inr Cases.gappedTagOut)
    by reflexivity.
  split; [exact H|]. split.
  { apply Lines_intro; [reflexivity | discriminate | reflexivity]. }
  split; [reflexivity|].
  exact (listTagNames_lists_nonblank_lines
           (spawn Cases.gappedTags) tt Cases.gappedTagOut H).
Defined.

End Properties.

(** ** Further behaviour of [git.ts] *)

Module Behaviour.

(** *** How [parseLogMessage] chooses among the readings of a line *)

Section Greedy.

Context {X : Type} (k : jsstring -> option X).

Lemma star_none (g t : jsstring) :
  star k (g ++ t) = None -> dots g = true -> k t = None.
Proof.
  intros Hs Hg. destruct (k t) eqn:Ek; [|reflexivity].
  exfalso. apply (star_complete k g t Hg); [congruence | exact Hs].
Qed.

(** [star] returns the longest run after which the rest matches. *)
Lemma star_greedy (s g : jsstring) (x : X) :
  star k s = Some (g, x) ->
  forall g' t',
    s = g' ++ t' -> dots g' = true ->
    (List.length g < List.length g')%nat -> k t' = None.
Proof.
  revert g; induction s as [|c s IH]; intros g Hs g' t' E Hd Hlen.
  - destruct g'; [simpl in Hlen; lia | discriminate].
  - destruct g' as [|c' g']; [simpl in Hlen; lia|].
    simpl in E. injection E as <- E. simpl in Hd.
    apply andb_true_iff in Hd. destruct Hd as [Hc Hd].
    simpl in Hs. rewrite Hc in Hs.
    destruct (star k s) as [[g1 x1]|] eqn:E1.
    + injection Hs as <- <-. apply (IH g1 eq_refl g' t' E Hd).
      simpl in Hlen. lia.
    + subst s. exact (star_none g' t' E1 Hd).
Qed.

Lemma plus_greedy (s g : jsstring) (x : X) :
  plus k s = Some (g, x) ->
  forall g' t',
    s = g' ++ t' -> dots g' = true ->
    (List.length g < List.length g')%nat -> k t' = None.
Proof.
  intros Hs g' t' E Hd Hlen.
  destruct s as [|c s]; [discriminate|].
  destruct g' as [|c' g']; [simpl in Hlen; lia|].
  simpl in E. injection E as <- E. simpl in Hd.
  apply andb_true_iff in Hd. destruct Hd as [Hc Hd].
  simpl in Hs. rewrite Hc in Hs.
  destruct (star k s) as [[g1 x1]|] eqn:E1; [|discriminate].
  injection Hs as <- <-.
  apply (star_greedy s g1 x1 E1 g' t' E Hd). simpl in Hlen. lia.
Qed.

End Greedy.

Lemma app_same_length {A : Type} (a a' b b' : list A) :
  a ++ b = a' ++ b' -> List.length a = List.length a' -> a = a' /\ b = b'.
Proof.
  revert a'; induction a as [|x a IH]; intros [|x' a'] E Hlen;
    try discriminate; simpl in *.
  - auto.
  - injection E as <- E. injection Hlen as Hlen.
    destruct (IH a' E Hlen) as [-> ->]. auto.
Qed.

(** Among the readings of the expression at the start of a text,
    [matchHere] returns the preferred one. *)
Lemma matchHere_prefers (re : regex) (s rest : jsstring)
  (caps : list jsstring) :
  matchHere re s = Some (caps, rest) ->
  forall t' caps' rest',
    Matches re t' caps' -> s = t' ++ rest' -> prefers caps' caps.
Proof.
  revert s caps; induction re as [|[p| |] re IH]; intros s caps Hm t' caps' rest' HM E.
  - simpl in Hm. injection Hm as <- <-. inversion HM. exact I.
  - simpl in Hm. destruct (strip p s) as [s'|] eqn:Es; [|discriminate].
    apply strip_spec in Es. subst s.
    inversion HM as [|p0 re0 t0 caps0 HM0| |]. subst.
    rewrite <- app_assoc in E. apply app_inv_head in E.
    exact (IH _ _ Hm _ _ _ HM0 E).
  - simpl in Hm.
    destruct (star (matchHere re) s) as [[g [caps0 rest0]]|] eqn:Es;
      [|discriminate].
    injection Hm as <- <-.
    inversion HM as [| |g' re0 t0 caps0' Hd' HM0|]. subst.
    rewrite <- app_assoc in Es.
    destruct (star_sound _ _ _ _ Es) as (t1 & E1 & Hd & Hk).
    simpl.
    destruct (Nat.lt_trichotomy (List.length g') (List.length g))
      as [Hlt|[Heq|Hgt]].
    + left. exact Hlt.
    + right. destruct (app_same_length _ _ _ _ E1 Heq) as [-> E2].
      split; [reflexivity|].
      exact (IH _ _ Hk _ _ _ HM0 (eq_sym E2)).
    + exfalso.
      apply (matchHere_complete _ _ _ HM0 rest').
      exact (star_greedy _ _ _ _ Es g' (t0 ++ rest') eq_refl Hd' Hgt).
  - simpl in Hm.
    destruct (plus (matchHere re) s) as [[g [caps0 rest0]]|] eqn:Es;
      [|discriminate].
    injection Hm as <- <-.
    inversion HM as [| | |g' re0 t0 caps0' Hd' Hb' HM0]. subst.
    rewrite <- app_assoc in Es.
    destruct (plus_sound _ _ _ _ Es) as (t1 & E1 & Hd & Hb & Hk).
    simpl.
    destruct (Nat.lt_trichotomy (List.length g') (List.length g))
      as [Hlt|[Heq|Hgt]].
    + left. exact Hlt.
    + right. destruct (app_same_length _ _ _ _ E1 Heq) as [-> E2].
      split; [reflexivity|].
      exact (IH _ _ Hk _ _ _ HM0 (eq_sym E2)).
    + exfalso.
      apply (matchHere_complete _ _ _ HM0 rest').
      exact (plus_greedy _ _ _ _ Es g' (t0 ++ rest') eq_refl Hd' Hgt).
Qed.

(** [String.match] returns the leftmost reading, and at that start the
    preferred one. *)
Lemma String_match_leftmost (re : regex) (s : jsstring)
  (parts : list jsstring) :
  String_match s re = Some parts ->
  exists pre t post caps,
    s = pre ++ t ++ post /\ Matches re t caps /\ parts = t :: caps
    /\ forall pre' t' post' caps',
         s = pre' ++ t' ++ post' -> Matches re t' caps' ->
         (List.length pre <= List.length pre')%nat
         /\ (List.length pre' = List.length pre -> prefers caps' caps).
Proof.
  assert (Hhere : forall s caps rest parts,
             matchHere re s = Some (caps, rest) ->
             Some (firstn (List.length s - List.length rest)%nat s :: caps)
             = Some parts ->
             exists pre t post caps,
               s = pre ++ t ++ post /\ Matches re t caps /\ parts = t :: caps
               /\ forall pre' t' post' caps',
                    s = pre' ++ t' ++ post' -> Matches re t' caps' ->
                    (List.length pre <= List.length pre')%nat
                    /\ (List.length pre' = List.length pre ->
                        prefers caps' caps)).
  { intros s0 caps rest parts0 Em H.
    destruct (matchHere_sound _ _ _ _ Em) as (t & Ht & Hm).
    rewrite Ht, firstn_matched in H. injection H as <-.
    exists [], t, rest, caps.
    split; [exact Ht|]. split; [exact Hm|]. split; [reflexivity|].
    intros pre' t' post' caps' E' HM'. split; [simpl; lia|].
    intros Hl. destruct pre'; [|discriminate].
    exact (matchHere_prefers _ _ _ _ Em _ _ _ HM' E'). }
  revert parts; induction s as [|c s IH]; intros parts;
    rewrite String_match_eq.
  - destruct (matchHere re []) as [[caps rest]|] eqn:Em; [|discriminate].
    apply (Hhere _ _ _ _ Em).
  - destruct (matchHere re (c :: s)) as [[caps rest]|] eqn:Em;
      [apply (Hhere _ _ _ _ Em)|].
    intros H.
    destruct (IH _ H) as (pre & t & post & caps & -> & Hm & -> & Hbest).
    exists (c :: pre), t, post, caps.
    split; [reflexivity|]. split; [exact Hm|]. split; [reflexivity|].
    intros pre' t' post' caps' E' HM'.
    destruct pre' as [|c' pre'].
    + exfalso. simpl in E'.
      apply (matchHere_complete _ _ _ HM' post'). rewrite <- E'. exact Em.
    + simpl in E'. injection E' as <- E'.
      destruct (Hbest _ _ _ _ E' HM') as [Hle Hp]. split; [simpl; lia|].
      intros Hl. simpl in Hl. injection Hl as Hl. exact (Hp Hl).
Qed.

Lemma prefers_antisym (a b : list jsstring) :
  prefers a b -> prefers b a -> a = b.
Proof.
  revert b; induction a as [|x a IH]; intros [|y b]; simpl; try tauto.
  intros [H1|[-> H1]] [H2|[E2 H2]]; try lia.
  - subst. lia.
  - f_equal. exact (IH _ H1 H2).
Qed.

Lemma fields_inj (item item' : CommitListItem) :
  fields item = fields item' -> item = item'.
Proof.
  destruct item, item'. unfold fields. simpl. intros [= -> -> -> ->].
  reflexivity.
Qed.

(** The match array behind a record. *)
Lemma parseLogMessage_parts (line : jsstring) (item : CommitListItem) :
  parseLogMessage line = Some item ->
  exists whole, String_match line logPattern = Some (whole :: fields item).
Proof.
  unfold parseLogMessage.
  destruct (String_match line logPattern) as [parts|] eqn:Em;
    [|simpl; discriminate].
  destruct (parts_of_match _ _ Em) as (pre & it & post & whole & _ & _ & ->).
  simpl. intros [= <-]. exists whole. destruct it. reflexivity.
Qed.

(** X1.  The record that [parseLogMessage] returns is read at the leftmost
    place of the line where the structured format occurs: no occurrence
    starts earlier.  Among the occurrences that start there it is the one
    the greedy groups prefer: the longest hash, then the longest ref names,
    then the longest summary, then the longest date. *)
Theorem parseLogMessage_leftmost_greedy
  (line : jsstring) (item : CommitListItem) :
  parseLogMessage line = Some item ->
  exists pre post,
    line = pre ++ serialize item ++ post
    /\ forall pre' item' post',
         line = pre' ++ serialize item' ++ post' ->
         fieldsOk item' = true ->
         (List.length pre <= List.length pre')%nat
         /\ (List.length pre' = List.length pre ->
             prefers (fields item') (fields item)).
Proof.
  intros Hp. destruct (parseLogMessage_parts _ _ Hp) as (whole & Hs).
  destruct (String_match_leftmost _ _ _ Hs)
    as (pre & t & post & caps & E & Hm & Hparts & Hbest).
  injection Hparts as -> <-.
  destruct (Matches_logPattern _ _ Hm) as (it & Hf & -> & _).
  apply fields_inj in Hf. subst it.
  exists pre, post. split; [exact E|].
  intros pre' item' post' E' Hok'.
  exact (Hbest _ _ _ _ E' (Matches_serialize _ Hok')).
Qed.

(** X2.  Parsing is stable: the line that serializes a parsed record parses
    to the same record, whatever the line it was parsed from and whatever
    its fields contain. *)
Theorem parseLogMessage_stable (line : jsstring) (item : CommitListItem) :
  parseLogMessage line = Some item ->
  parseLogMessage (serialize item) = Some item.
Proof.
  intros Hp. destruct (parseLogMessage_parts _ _ Hp) as (whole & Hs).
  destruct (String_match_leftmost _ _ _ Hs)
    as (pre & t & post & caps & E & Hm & Hparts & Hbest).
  injection Hparts as -> <-.
  destruct (Matches_logPattern _ _ Hm) as (it & Hf & -> & Hok).
  apply fields_inj in Hf. subst it.
  pose proof (matchHere_complete _ _ _ (Matches_serialize _ Hok) []) as Hh.
  rewrite app_nil_r in Hh.
  destruct (matchHere logPattern (serialize item)) as [[caps2 rest2]|] eqn:Em;
    [|contradiction].
  destruct (String_match_here _ _ _ _ Em) as (whole2 & Hs2).
  destruct (matchHere_sound _ _ _ _ Em) as (t2 & Ht2 & Hm2).
  assert (Hup : prefers (fields item) caps2).
  { apply (matchHere_prefers _ _ _ _ Em (serialize item) (fields item) []).
    - exact (Matches_serialize _ Hok).
    - symmetry. apply app_nil_r. }
  assert (Hdown : prefers caps2 (fields item)).
  { apply (Hbest pre t2 (rest2 ++ post) caps2); [|exact Hm2|reflexivity].
    rewrite E, Ht2, <- !app_assoc. reflexivity. }
  pose proof (prefers_antisym _ _ Hdown Hup) as Hsame. subst caps2.
  unfold parseLogMessage. rewrite Hs2. simpl. destruct item. reflexivity.
Qed.

(** X3.  A commit whose fields hold no delimiter but which the format
    cannot carry (its hash is empty, or a field holds a carriage return or
    another line terminator) is dropped: its line does not parse. *)
Theorem parseLogMessage_drops_uncarried (item : CommitListItem) :
  delimiterFree item = true ->
  fieldsOk item = false ->
  parseLogMessage (serialize item) = None.
Proof.
  intros Hfree Hbad.
  destruct (parseLogMessage (serialize item)) as [item'|] eqn:E;
    [|reflexivity].
  exfalso.
  assert (Hm : formatOccurs (serialize item))
    by (apply parseLogMessage_matches; congruence).
  rewrite (formatOccurs_fieldsOk _ Hfree Hm) in Hbad. discriminate.
Qed.

(** *** Lines are parsed one by one *)

Lemma filterObj_app {T : Type} (xs ys : list (option T)) :
  filterObj (xs ++ ys) = filterObj xs ++ filterObj ys.
Proof.
  induction xs as [|[x|] xs IH]; simpl; [reflexivity| |assumption].
  f_equal. exact IH.
Qed.

Lemma split_length (sep : char) (s : jsstring) :
  List.length (split sep s) = S (count sep s).
Proof.
  unfold count. induction s as [|c s IH]; simpl; [reflexivity|].
  rewrite (N.eqb_sym sep c).
  destruct (c =? sep); simpl; [rewrite IH; reflexivity|].
  pose proof (split_not_nil sep s) as Hn.
  destruct (split sep s) as [|l ls]; [contradiction | exact IH].
Qed.

(** X4.  The parsing chain of [listCommits] works line by line: the records
    of two outputs joined by a line feed are the records of the first
    followed by the records of the second. *)
Theorem parseLog_app (a b : jsstring) :
  parseLog (a ++ LF :: b) = parseLog a ++ parseLog b.
Proof.
  unfold parseLog.
  rewrite split_app, filter_app, map_app, filterObj_app. reflexivity.
Qed.

Section Runs.

Context {World Error : Type}.
Variable spawn : list jsstring -> World -> (Error + jsstring) * World.

(** X5.  [changedPaths] loses nothing of the output of [git show]: joining
    the returned paths with line feeds gives the output back.  The sequence
    is never empty, it has one entry more than the output has line feeds,
    and no entry contains a line feed. *)
Theorem changedPaths_roundtrip (sha : jsstring) (w : World) (out : jsstring) :
  fst (spawn (git :: showArgs sha) w) = inr out ->
  exists paths,
    outcome (changedPaths spawn sha w) = inr paths
    /\ join LF paths = out
    /\ paths <> []
    /\ List.length paths = S (count LF out)
    /\ forall p, In p paths -> ~ In LF p.
Proof.
  intros Hout. exists (split LF out).
  split; [exact (Properties.changedPaths_lines spawn sha w out Hout)|].
  split; [apply join_split|]. split; [apply split_not_nil|].
  split; [apply split_length|]. intros p. apply split_no_sep.
Qed.

(** X6.  Without the remote there is no result: when [git fetch] fails,
    [listCommits] fails with its error and runs no other process, neither a
    duplicate check nor the range query. *)
Theorem listCommits_needs_fetch
  (from to : jsstring) (bs : list jsstring) (w : World) (e : Error) :
  fst (spawn (git :: fetchArgs) w) = inl e ->
  outcome (listCommits spawn from to bs w) = inl e
  /\ trace (listCommits spawn from to bs w) = [(git :: fetchArgs, inl e)].
Proof.
  intros He. rewrite listCommits_cases, He. split; reflexivity.
Qed.

Lemma forEachBranch_failure (bs acc : list jsstring) (w : World) :
  match outcome (forEachBranch spawn bs acc w) with
  | inl e =>
      exists evs argv,
        trace (forEachBranch spawn bs acc w) = evs ++ [(argv, inl e)]
        /\ Forall succeeded evs
  | inr _ => Forall succeeded (trace (forEachBranch spawn bs acc w))
  end.
Proof.
  revert acc w; induction bs as [|b bs IH]; intros acc w.
  - simpl. constructor.
  - rewrite forEachBranch_cons.
    destruct (fst (spawn (git :: branchArgs b) w)) as [e|out]; simpl.
    + exists [], (git :: branchArgs b). split; [reflexivity|constructor].
    + specialize (IH (acc ++ linesOf out)
                    (snd (spawn (git :: branchArgs b) w))).
      destruct (outcome (forEachBranch spawn bs (acc ++ linesOf out) _))
        as [e|targets].
      * destruct IH as (evs & argv & -> & Hok).
        exists ((git :: branchArgs b, inr out) :: evs), argv.
        split; [reflexivity|]. constructor; [exists out; reflexivity|exact Hok].
      * constructor; [exists out; reflexivity|exact IH].
Qed.

(** The processes of an invocation, with the append of the loop total as
    in [forEachBranch]: all of them ended normally, but the last one when
    the invocation fails with its error. *)
Lemma listCommits_trace_shape
  (from to : jsstring) (bs : list jsstring) (w : World) :
  match outcome (listCommits spawn from to bs w) with
  | inl e =>
      exists evs argv,
        trace (listCommits spawn from to bs w) = evs ++ [(argv, inl e)]
        /\ Forall succeeded evs
  | inr _ => Forall succeeded (trace (listCommits spawn from to bs w))
  end.
Proof.
  rewrite listCommits_cases.
  destruct (fst (spawn (git :: fetchArgs) w)) as [e|o]; simpl.
  - exists [], (git :: fetchArgs). split; [reflexivity|constructor].
  - pose proof (forEachBranch_failure bs []
                  (snd (spawn (git :: fetchArgs) w))) as Hb.
    destruct (outcome (forEachBranch spawn bs [] _)) as [e|targets]; simpl.
    + destruct Hb as (evs & argv & -> & Hok).
      exists ((git :: fetchArgs, inr o) :: evs), argv.
      split; [reflexivity|]. constructor; [exists o; reflexivity|exact Hok].
    + destruct (fst (spawn (git :: rangeArgs from to) _)) as [e|raw]; simpl.
      * eexists ((git :: fetchArgs, inr o) :: _), (git :: rangeArgs from to).
        split; [reflexivity|].
        constructor; [exists o; reflexivity|exact Hb].
      * constructor; [exists o; reflexivity|].
        apply Forall_app. split; [exact Hb|].
        constructor; [exists raw; reflexivity|constructor].
Qed.

(** A process that is not the last of a sequence ending in [x] is one
    of those before [x]. *)
Lemma last_or_before {A : Type} (evs rest evs0 : list A) (ev x : A) :
  evs ++ ev :: rest = evs0 ++ [x] ->
  (rest = [] /\ evs = evs0 /\ ev = x) \/ In ev evs0.
Proof.
  revert evs0; induction evs as [|a evs IH]; intros [|y evs0] E;
    simpl in E.
  - injection E as -> ->. left. auto.
  - injection E as -> _. right. left. reflexivity.
  - injection E as _ E. destruct evs; discriminate E.
  - injection E as -> E. destruct (IH _ E) as [(-> & -> & ->)|Hin].
    + left. auto.
    + right. right. exact Hin.
Qed.

(** X7.  [listCommits] never goes on after a process has failed and never
    hides its failure: a process that fails is the last one the invocation
    runs, every process before it ended normally, and the invocation fails
    with its error; when the invocation returns, every process it ran
    ended normally. *)
Theorem listCommits_stops_at_first_failure
  (from to : jsstring) (bs : list jsstring) (w : World) :
  (forall evs ev rest e,
     trace (listCommits spawn from to bs w) = evs ++ ev :: rest ->
     snd ev = inl e ->
     rest = [] /\ Forall succeeded evs
     /\ outcome (listCommits spawn from to bs w) = inl e)
  /\ (forall r,
        outcome (listCommits spawn from to bs w) = inr r ->
        Forall succeeded (trace (listCommits spawn from to bs w))).
Proof.
  pose proof (listCommits_trace_shape from to bs w) as Hshape.
  destruct (outcome (listCommits spawn from to bs w)) as [e0|r0].
  - destruct Hshape as (evs0 & argv & Htr & Hok). split; [|discriminate].
    intros evs ev rest e E He. rewrite Htr in E. symmetry in E.
    destruct (last_or_before _ _ _ _ _ E) as [(-> & -> & ->)|Hin].
    + simpl in He. injection He as ->. auto.
    + rewrite Forall_forall in Hok. destruct (Hok _ Hin) as (out & Hout).
      congruence.
  - split; [|intros r _; exact Hshape].
    intros evs ev rest e E He. rewrite Forall_forall in Hshape.
    assert (Hin : In ev (trace (listCommits spawn from to bs w)))
      by (rewrite E; apply in_app_iff; right; left; reflexivity).
    destruct (Hshape _ Hin) as (out & Hout). congruence.
Qed.

Lemma forEachBranch_sequence (bs acc targets : list jsstring) (w : World) :
  outcome (forEachBranch spawn bs acc w) = inr targets ->
  map fst (trace (forEachBranch spawn bs acc w))
  = map (fun b => git :: branchArgs b) bs.
Proof.
  revert acc w; induction bs as [|b bs IH]; intros acc w.
  - reflexivity.
  - rewrite forEachBranch_cons.
    destruct (fst (spawn (git :: branchArgs b) w)) as [e|out]; simpl;
      [discriminate|].
    intros Ho. f_equal. exact (IH _ _ Ho).
Qed.

(** X8.  A call of [listCommits] that returns has run, in this order, the
    fetch, one duplicate-check query for each entry of the branch list in
    the order of the list (an entry listed twice is queried twice), and the
    range query, and nothing else. *)
Theorem listCommits_process_sequence
  (from to : jsstring) (bs : list jsstring) (w : World)
  (r : list CommitListItem) :
  outcome (listCommits spawn from to bs w) = inr r ->
  map fst (trace (listCommits spawn from to bs w))
  = (git :: fetchArgs)
      :: map (fun b => git :: branchArgs b) bs ++ [git :: rangeArgs from to].
Proof.
  rewrite listCommits_cases.
  destruct (fst (spawn (git :: fetchArgs) w)) as [e|o]; simpl;
    [discriminate|].
  destruct (outcome (forEachBranch spawn bs [] _)) as [e|targets] eqn:E1;
    simpl; [discriminate|].
  pose proof (forEachBranch_sequence _ _ _ _ E1) as Hseq.
  destruct (fst (spawn (git :: rangeArgs from to) _)) as [e|raw]; simpl;
    [discriminate|].
  intros _. rewrite map_app. f_equal. f_equal. exact Hseq.
Qed.

(** X9.  The range query is only run after the fetch and every
    duplicate-check query ended normally: a failed duplicate check leaves
    the primary range unread. *)
Theorem listCommits_range_after_checks
  (from to : jsstring) (bs : list jsstring) (w : World)
  (o : Error + jsstring) :
  In (git :: rangeArgs from to, o) (trace (listCommits spawn from to bs w)) ->
  (exists out,
     In (git :: fetchArgs, inr out) (trace (listCommits spawn from to bs w)))
  /\ forall b, In b bs ->
       exists out,
         In (git :: branchArgs b, inr out)
           (trace (listCommits spawn from to bs w)).
Proof.
  destruct (listCommits_inv spawn from to bs w) as (o0 & tr1 & Htr1 & Hc).
  destruct Hc as [(e & -> & Ht & Ho)|[(out0 & e & -> & Ht & Ho)
                 |(out0 & targets & o2 & -> & Ht & Hall & Hin & Ho)]];
    rewrite Ht; clear Ht.
  - intros [H|[]]. exfalso. exact (range_event_fetch _ _ _ _ H).
  - intros [H|H]; exfalso.
    + exact (range_event_fetch _ _ _ _ H).
    + destruct (Htr1 _ H) as (b & o' & _ & E).
      symmetry in E. exact (range_event_branch _ _ _ _ _ E).
  - intros _. split.
    + exists out0. left. reflexivity.
    + intros b Hb. destruct (Hall b Hb) as (out & Hout).
      exists out. apply branch_event_inside. exact Hout.
Qed.

(** X10.  A commit without subject is never taken for a duplicate: the
    exclusion array holds non-blank lines only, so a record with an empty
    summary that the range output yields is always returned. *)
Theorem listCommits_keeps_blank_summary
  (from to : jsstring) (bs : list jsstring) (w : World) (raw : jsstring)
  (item : CommitListItem) :
  In (git :: rangeArgs from to, inr raw)
    (trace (listCommits spawn from to bs w)) ->
  In item (parseLog raw) ->
  summary item = [] ->
  exists r, outcome (listCommits spawn from to bs w) = inr r /\ In item r.
Proof.
  intros Hraw Hin Hs.
  destruct (range_event spawn _ _ _ _ _ Hraw) as (targets & Ht & Ho).
  eexists. split; [exact Ho|].
  apply filter_In. split; [exact Hin|].
  rewrite Hs. apply negb_true_iff, includes_false. intros Hex.
  apply Ht in Hex. destruct Hex as (b & out & _ & _ & Hl).
  unfold linesOf in Hl. apply filter_In in Hl. destruct Hl as [_ Hb].
  discriminate.
Qed.

(** X11.  When the duplicate-check queries of the listed branches leave the
    world as it is, the result depends on the branch list as a set only:
    two lists with the same members, in any order and with any repetition,
    make [listCommits] return the same sequence, or fail both. *)
Theorem listCommits_same_members
  (from to : jsstring) (bs bs' : list jsstring) (w : World) :
  (forall b w', In b bs -> snd (spawn (git :: branchArgs b) w') = w') ->
  (forall b, In b bs <-> In b bs') ->
  match outcome (listCommits spawn from to bs w),
        outcome (listCommits spawn from to bs' w) with
  | inr r, inr r' => r = r'
  | inl _, inl _ => True
  | _, _ => False
  end.
Proof.
  intros Hro Hsame. rewrite !listCommits_cases.
  assert (Hro' : forall b w',
             In b bs' -> snd (spawn (git :: branchArgs b) w') = w').
  { intros b w' Hb. apply Hro. apply Hsame. exact Hb. }
  destruct (fst (spawn (git :: fetchArgs) w)) as [e|o]; [exact I|].
  cbv zeta.
  destruct (forEachBranch_readonly spawn bs Hro []
              (snd (spawn (git :: fetchArgs) w))) as [Hw Ho].
  destruct (forEachBranch_readonly spawn bs' Hro' []
              (snd (spawn (git :: fetchArgs) w))) as [Hw' Ho'].
  rewrite Hw, Hw'.
  destruct (outcome (forEachBranch spawn bs [] _)) as [e|targets];
    destruct (outcome (forEachBranch spawn bs' [] _)) as [e'|targets'].
  - exact I.
  - simpl. destruct Ho as (b & e1 & Hb & E). destruct Ho' as [Hall _].
    destruct (Hall b (proj1 (Hsame b) Hb)) as (out & E'). congruence.
  - simpl. destruct Ho' as (b & e1 & Hb & E). destruct Ho as [Hall _].
    destruct (Hall b (proj2 (Hsame b) Hb)) as (out & E'). congruence.
  - destruct Ho as [_ Hin]. destruct Ho' as [_ Hin'].
    destruct (fst (spawn (git :: rangeArgs from to) _)) as [e|raw];
      simpl; [exact I|].
    apply filter_ext. intros item. f_equal.
    assert (Heq : forall s, In s targets <-> In s targets').
    { intros s. rewrite Hin, Hin'. split.
      - intros [[]|(b & out & Hb & E & Hs)]. right. exists b, out.
        split; [exact (proj1 (Hsame b) Hb) | auto].
      - intros [[]|(b & out & Hb & E & Hs)]. right. exists b, out.
        split; [exact (proj2 (Hsame b) Hb) | auto]. }
    destruct (includes targets (summary item)) eqn:E1;
      destruct (includes targets' (summary item)) eqn:E2;
      try reflexivity.
    + apply includes_In, Heq, includes_In in E1. congruence.
    + apply includes_In, Heq, includes_In in E2. congruence.
Qed.

Lemma filter_filter_implied {A : Type} (f g : A -> bool) (l : list A) :
  (forall x, f x = true -> g x = true) ->
  filter f l = filter f (filter g l).
Proof.
  intros Himp. induction l as [|x l IH]; simpl; [reflexivity|].
  destruct (f x) eqn:Ef.
  - rewrite (Himp x Ef). simpl. rewrite Ef. f_equal. exact IH.
  - destruct (g x); simpl; [rewrite Ef|]; exact IH.
Qed.

(** X12.  Listing more duplicate-check branches only removes records.  When
    the duplicate-check queries leave the world as it is and [listCommits]
    returns for the longer list, it returns for the shorter one too, and the
    longer list's result is the shorter list's result filtered once more by
    a test on the summary. *)
Theorem listCommits_more_branches
  (from to : jsstring) (bs extra : list jsstring) (w : World)
  (r' : list CommitListItem) :
  (forall b w',
     In b (bs ++ extra) -> snd (spawn (git :: branchArgs b) w') = w') ->
  outcome (listCommits spawn from to (bs ++ extra) w) = inr r' ->
  exists r keep,
    outcome (listCommits spawn from to bs w) = inr r
    /\ r' = filter (fun item => keep (summary item)) r.
Proof.
  intros Hro. rewrite !listCommits_cases.
  assert (Hro1 : forall b w',
             In b bs -> snd (spawn (git :: branchArgs b) w') = w').
  { intros b w' Hb. apply Hro. apply in_or_app. left. exact Hb. }
  destruct (fst (spawn (git :: fetchArgs) w)) as [e|o]; [discriminate|].
  cbv zeta.
  destruct (forEachBranch_readonly spawn (bs ++ extra) Hro []
              (snd (spawn (git :: fetchArgs) w))) as [Hw' Ho'].
  destruct (forEachBranch_readonly spawn bs Hro1 []
              (snd (spawn (git :: fetchArgs) w))) as [Hw Ho].
  rewrite Hw, Hw'.
  destruct (outcome (forEachBranch spawn (bs ++ extra) [] _))
    as [e'|targets']; [discriminate|].
  destruct Ho' as [Hall' Hin'].
  destruct (outcome (forEachBranch spawn bs [] _)) as [e|targets].
  { exfalso. destruct Ho as (b & e1 & Hb & E).
    destruct (Hall' b (in_or_app _ _ _ (or_introl Hb))) as (out & E').
    congruence. }
  destruct Ho as [_ Hin].
  destruct (fst (spawn (git :: rangeArgs from to) _)) as [e|raw];
    simpl; [discriminate|].
  intros [= <-]. eexists. exists (fun s => negb (includes targets' s)).
  split; [reflexivity|].
  apply filter_filter_implied. intros item Hk.
  apply negb_true_iff, includes_false. apply negb_true_iff, includes_false in Hk.
  intros Hs. apply Hk. apply Hin'. apply Hin in Hs.
  destruct Hs as [[]|(b & out & Hb & E & Hs)].
  right. exists b, out. split; [apply in_or_app; left; exact Hb | auto].
Qed.

End Runs.

(** *** The behaviour at work on scripted repositories *)

Import Scripted Cases.

Lemma parseLogMessage_leftmost_greedy_witness :
  parseLogMessage markedLine = Some markedItem
  /\ exists pre post,
       markedLine = pre ++ serialize markedItem ++ post
       /\ forall pre' item' post',
            markedLine = pre' ++ serialize item' ++ post' ->
            fieldsOk item' = true ->
            (List.length pre <= List.length pre')%nat
            /\ (List.length pre' = List.length pre ->
                prefers (fields item') (fields markedItem)).
Proof.
  assert (H : parseLogMessage markedLine = Some markedItem) by reflexivity.
  split; [exact H|].
  exact (parseLogMessage_leftmost_greedy markedLine markedItem H).
Defined.

Lemma parseLogMessage_stable_witness :
  parseLogMessage markedLine = Some markedItem
  /\ parseLogMessage (serialize markedItem) = Some markedItem.
Proof.
  assert (H : parseLogMessage markedLine = Some markedItem) by reflexivity.
  split; [exact H|].
  exact (parseLogMessage_stable markedLine markedItem H).
Defined.

Lemma parseLogMessage_drops_uncarried_witness :
  delimiterFree returnItem = true
  /\ fieldsOk returnItem = false
  /\ parseLogMessage (serialize returnItem) = None.
Proof.
  split; [reflexivity|]. split; [reflexivity|].
  exact (parseLogMessage_drops_uncarried returnItem eq_refl eq_refl).
Defined.

Lemma changedPaths_roundtrip_witness :
  fst (spawn showRepo (git :: showArgs (lit "abc123")) tt) = inr showOut
  /\ exists paths,
       outcome (changedPaths (spawn showRepo) (lit "abc123") tt) = inr paths
       /\ join LF paths = showOut
       /\ paths <> []
       /\ List.length paths = S (count LF showOut)
       /\ forall p, In p paths -> ~ In LF p.
Proof.
  assert (H : fst (spawn showRepo (git :: showArgs (lit "abc123")) tt)
              = inr showOut) by reflexivity.
  split; [exact H|].
  exact (changedPaths_roundtrip (spawn showRepo) (lit "abc123") tt showOut H).
Defined.

Lemma listCommits_needs_fetch_witness :
  fst (spawn offline (git :: fetchArgs) tt) = inl (git :: fetchArgs)
  /\ outcome (listCommits (spawn offline) v1 v2 [release] tt)
     = inl (git :: fetchArgs)
  /\ trace (listCommits (spawn offline) v1 v2 [release] tt)
     = [(git :: fetchArgs, inl (git :: fetchArgs))].
Proof.
  assert (H : fst (spawn offline (git :: fetchArgs) tt)
              = inl (git :: fetchArgs)) by reflexivity.
  split; [exact H|].
  exact (listCommits_needs_fetch (spawn offline) v1 v2 [release] tt
           (git :: fetchArgs) H).
Defined.

Lemma listCommits_stops_at_first_failure_witness :
  trace (listCommits (spawn noisy) v1 v2 [release; hotfix] tt)
  = [(git :: fetchArgs, inr [])]
      ++ (git :: branchArgs release, inl (git :: branchArgs release)) :: []
  /\ [] = ([] : list (Event (list jsstring)))
  /\ Forall succeeded
       [((git :: fetchArgs, inr []) : Event (list jsstring))]
  /\ outcome (listCommits (spawn noisy) v1 v2 [release; hotfix] tt)
     = inl (git :: branchArgs release).
Proof.
  assert (H : trace (listCommits (spawn noisy) v1 v2 [release; hotfix] tt)
              = [(git :: fetchArgs, inr [])]
                  ++ (git :: branchArgs release,
                      inl (git :: branchArgs release)) :: [])
    by reflexivity.
  split; [exact H|].
  exact (proj1 (listCommits_stops_at_first_failure
                  (spawn noisy) v1 v2 [release; hotfix] tt)
           _ _ _ (git :: branchArgs release) H eq_refl).
Defined.

Lemma listCommits_process_sequence_witness :
  outcome (listCommits (spawn repo) v1 v2 [release; release] tt)
  = inr [fixBug; addDocs]
  /\ map fst (trace (listCommits (spawn repo) v1 v2 [release; release] tt))
     = (git :: fetchArgs)
         :: map (fun b => git :: branchArgs b) [release; release]
              ++ [git :: rangeArgs v1 v2].
Proof.
  assert (H : outcome (listCommits (spawn repo) v1 v2 [release; release] tt)
              = inr [fixBug; addDocs]) by reflexivity.
  split; [exact H|].
  exact (listCommits_process_sequence (spawn repo) v1 v2 [release; release]
           tt [fixBug; addDocs] H).
Defined.

Lemma listCommits_range_after_checks_witness :
  In (git :: rangeArgs v1 v2, inr rangeOut)
    (trace (listCommits (spawn repo) v1 v2 [release] tt))
  /\ (exists out,
        In (git :: fetchArgs, inr out)
          (trace (listCommits (spawn repo) v1 v2 [release] tt)))
  /\ forall b, In b [release] ->
       exists out,
         In (git :: branchArgs b, inr out)
           (trace (listCommits (spawn repo) v1 v2 [release] tt)).
Proof.
  assert (H : In (git :: rangeArgs v1 v2, inr rangeOut)
                (trace (listCommits (spawn repo) v1 v2 [release] tt)))
    by (right; right; left; reflexivity).
  split; [exact H|].
  exact (listCommits_range_after_checks (spawn repo) v1 v2 [release] tt
           (inr rangeOut) H).
Defined.

Lemma listCommits_keeps_blank_summary_witness :
  In (git :: rangeArgs v1 v2, inr blankSubjectOut)
    (trace (listCommits (spawn blankRepo) v1 v2 [release] tt))
  /\ In blankSubject (parseLog blankSubjectOut)
  /\ summary blankSubject = []
  /\ exists r,
       outcome (listCommits (spawn blankRepo) v1 v2 [release] tt) = inr r
       /\ In blankSubject r.
Proof.
  assert (H : In (git :: rangeArgs v1 v2, inr blankSubjectOut)
                (trace (listCommits (spawn blankRepo) v1 v2 [release] tt)))
    by (right; right; left; reflexivity).
  assert (Hin : In blankSubject (parseLog blankSubjectOut))
    by (left; reflexivity).
  split; [exact H|]. split; [exact Hin|]. split; [reflexivity|].
  exact (listCommits_keeps_blank_summary (spawn blankRepo) v1 v2 [release] tt
           blankSubjectOut blankSubject H Hin eq_refl).
Defined.

Lemma listCommits_same_members_witness :
  (forall b w',
     In b [release] -> snd (spawn repo (git :: branchArgs b) w') = w')
  /\ (forall b, In b [release] <-> In b [release; release])
  /\ match outcome (listCommits (spawn repo) v1 v2 [release] tt),
           outcome (listCommits (spawn repo) v1 v2 [release; release] tt)
     with
     | inr r, inr r' => r = r'
     | inl _, inl _ => True
     | _, _ => False
     end.
Proof.
  assert (Hro : forall b w',
             In b [release] ->
             snd (spawn repo (git :: branchArgs b) w') = w').
  { intros b w' _. unfold spawn.
    destruct (lookup (git :: branchArgs b) repo); reflexivity. }
  assert (Hsame : forall b, In b [release] <-> In b [release; release]).
  { intros b. simpl. tauto. }
  split; [exact Hro|]. split; [exact Hsame|].
  exact (listCommits_same_members (spawn repo) v1 v2 [release]
           [release; release] tt Hro Hsame).
Defined.

Lemma listCommits_more_branches_witness :
  (forall b w',
     In b ([release] ++ [hotfix]) ->
     snd (spawn repo (git :: branchArgs b) w') = w')
  /\ outcome (listCommits (spawn repo) v1 v2 ([release] ++ [hotfix]) tt)
     = inr [fixBug]
  /\ exists r keep,
       outcome (listCommits (spawn repo) v1 v2 [release] tt) = inr r
       /\ [fixBug] = filter (fun item => keep (summary item)) r.
Proof.
  assert (Hro : forall b w',
             In b ([release] ++ [hotfix]) ->
             snd (spawn repo (git :: branchArgs b) w') = w').
  { intros b w' _. unfold spawn.
    destruct (lookup (git :: branchArgs b) repo); reflexivity. }
  assert (H : outcome (listCommits (spawn repo) v1 v2
                         ([release] ++ [hotfix]) tt) = inr [fixBug])
    by reflexivity.
  split; [exact Hro|]. split; [exact H|].
  exact (listCommits_more_branches (spawn repo) v1 v2 [release] [hotfix] tt
           [fixBug] Hro H).
Defined.

End Behaviour.

(** ** Facts about [configuration.ts] *)

Module ConfigFacts.

Section Classes.

Context {X : Type} (class : jsstring) (k : jsstring -> option X).

Lemma starNot_sound (s : jsstring) (r : X) :
  starNot class k s = Some r ->
  exists g t, s = g ++ t /\ avoids class g = true /\ k t = Some r.
Proof.
  induction s as [|c s IH]; simpl.
  - intros H. exists [], []. auto.
  - destruct (inClass c class) eqn:Ec.
    + intros H. exists [], (c :: s). auto.
    + destruct (starNot class k s) as [r'|] eqn:Es.
      * intros [= <-]. destruct (IH eq_refl) as (g & t & -> & Hg & Hk).
        exists (c :: g), t. simpl. rewrite Ec. auto.
      * intros H. exists [], (c :: s). auto.
Qed.

Lemma starNot_complete (g t : jsstring) :
  avoids class g = true -> k t <> None -> starNot class k (g ++ t) <> None.
Proof.
  intros Hg Hk. induction g as [|c g IH]; simpl.
  - destruct t as [|c t]; simpl; [exact Hk|].
    destruct (inClass c class); [exact Hk|].
    destruct (starNot class k t); [discriminate | exact Hk].
  - simpl in Hg. apply andb_true_iff in Hg. destruct Hg as [Hc Hg].
    apply negb_true_iff in Hc. rewrite Hc.
    specialize (IH Hg).
    destruct (starNot class k (g ++ t)); [discriminate | contradiction].
Qed.

(** When the rest of the pattern always matches, the run is the longest. *)
Lemma starNot_total (s : jsstring) :
  (forall t, k t <> None) ->
  exists g t,
    s = g ++ t /\ avoids class g = true /\ endsRun class t = true
    /\ starNot class k s = k t.
Proof.
  intros Hk. induction s as [|c s (g & t & -> & Hg & He & Hs)]; simpl.
  - exists [], []. auto.
  - destruct (inClass c class) eqn:Ec.
    + exists [], (c :: g ++ t). simpl. auto.
    + exists (c :: g), t. simpl. rewrite Ec. repeat split; auto.
      rewrite Hs. specialize (Hk t). destruct (k t); [reflexivity|contradiction].
Qed.

Lemma plusNot_sound (s : jsstring) (r : X) :
  plusNot class k s = Some r ->
  exists g t,
    s = g ++ t /\ Boolean g = true /\ avoids class g = true /\ k t = Some r.
Proof.
  destruct s as [|c s]; simpl; [discriminate|].
  destruct (inClass c class) eqn:Ec; [discriminate|].
  intros H. destruct (starNot_sound _ _ H) as (g & t & -> & Hg & Hk).
  exists (c :: g), t. simpl. rewrite Ec. auto.
Qed.

Lemma plusNot_complete (g t : jsstring) :
  Boolean g = true -> avoids class g = true -> k t <> None ->
  plusNot class k (g ++ t) <> None.
Proof.
  intros Hb Hg Hk. destruct g as [|c g]; [discriminate|].
  simpl in *. apply andb_true_iff in Hg. destruct Hg as [Hc Hg].
  apply negb_true_iff in Hc. rewrite Hc.
  exact (starNot_complete g t Hg Hk).
Qed.

Lemma plusNot_total (s : jsstring) (r : X) :
  (forall t, k t <> None) ->
  plusNot class k s = Some r ->
  exists g t,
    s = g ++ t /\ Boolean g = true /\ avoids class g = true
    /\ endsRun class t = true /\ k t = Some r.
Proof.
  intros Hk. destruct s as [|c s]; simpl; [discriminate|].
  destruct (inClass c class) eqn:Ec; [discriminate|].
  destruct (starNot_total s Hk) as (g & t & -> & Hg & He & Hs).
  rewrite Hs. intros H. exists (c :: g), t. simpl. rewrite Ec. auto.
Qed.

End Classes.

(** *** The regular expression of [findRepoFromPkg] *)

Lemma optGit_eq (opened : jsstring) (cap : option jsstring) (t : jsstring) :
  matchPieces [PClose; POpt (lit ".git")] opened cap t =
  match strip (lit ".git") t with
  | Some t' =>
      Some (Some (firstn (List.length opened - List.length t)%nat opened), t')
  | None =>
      Some (Some (firstn (List.length opened - List.length t)%nat opened), t)
  end.
Proof. reflexivity. Qed.

Lemma optGit_total (opened : jsstring) (cap : option jsstring)
  (t : jsstring) :
  matchPieces [PClose; POpt (lit ".git")] opened cap t <> None.
Proof.
  rewrite optGit_eq. destruct (strip (lit ".git") t); discriminate.
Qed.

Lemma optGit_capture (opened : jsstring) (cap cap' : option jsstring)
  (t rest : jsstring) :
  matchPieces [PClose; POpt (lit ".git")] opened cap t = Some (cap', rest) ->
  cap' = Some (firstn (List.length opened - List.length t)%nat opened).
Proof.
  rewrite optGit_eq.
  destruct (strip (lit ".git") t); intros [= <- _]; reflexivity.
Qed.

(** A match of the expression at the start of a text: the host, a colon or
    slash, and a repository name of two segments, the second as long as it
    can be; group 1 captures the name. *)
Lemma matchRepo_sound (opened : jsstring) (cap cap' : option jsstring)
  (s rest : jsstring) :
  matchPieces repoPattern opened cap s = Some (cap', rest) ->
  exists c owner name tail,
    s = host ++ c :: owner ++ slash ++ name ++ tail
    /\ inClass c joints = true
    /\ segment owner = true /\ segment name = true
    /\ endsRun stops tail = true
    /\ cap' = Some (owner ++ slash ++ name).
Proof.
  unfold repoPattern.
  change (matchPieces (PLit (lit "github.com") :: ?ps) opened cap s)
    with (match strip host s with
          | Some s' => matchPieces ps opened cap s'
          | None => None
          end).
  destruct (strip host s) as [s1|] eqn:E1; [|discriminate].
  apply strip_spec in E1. subst s.
  destruct s1 as [|c s2]; [discriminate|].
  change (matchPieces (POneOf (lit ":/") :: ?ps) opened cap (c :: s2))
    with (if inClass c joints then matchPieces ps opened cap s2 else None).
  destruct (inClass c joints) eqn:Ec; [|discriminate].
  change (matchPieces (POpen :: PManyNot (lit "./") :: ?ps) opened cap s2)
    with (plusNot stops (matchPieces ps s2 cap) s2).
  intros H.
  destruct (plusNot_sound _ _ _ _ H) as (owner & t1 & E2 & Hbo & Hao & H1).
  change (matchPieces (PLit (lit "/") :: PManyNot (lit "./") :: ?ps) s2 cap t1)
    with (match strip slash t1 with
          | Some t2 => plusNot stops (matchPieces ps s2 cap) t2
          | None => None
          end) in H1.
  destruct (strip slash t1) as [t2|] eqn:E3; [|discriminate].
  apply strip_spec in E3. subst t1.
  destruct (plusNot_total _ _ _ _ (optGit_total s2 cap) H1)
    as (name & tail & -> & Hbn & Han & He & H2).
  apply optGit_capture in H2.
  exists c, owner, name, tail.
  split; [rewrite E2; reflexivity|]. split; [exact Ec|].
  split; [unfold segment; rewrite Hbo, Hao; reflexivity|].
  split; [unfold segment; rewrite Hbn, Han; reflexivity|].
  split; [exact He|].
  rewrite H2, E2. f_equal.
  replace (owner ++ slash ++ name ++ tail)
    with ((owner ++ slash ++ name) ++ tail)
    by (rewrite <- !app_assoc; reflexivity).
  apply firstn_matched.
Qed.

Lemma matchRepo_complete (opened : jsstring) (cap : option jsstring)
  (c : char) (owner name rest : jsstring) :
  inClass c joints = true ->
  segment owner = true -> segment name = true ->
  matchPieces repoPattern opened cap
    (host ++ c :: owner ++ slash ++ name ++ rest) <> None.
Proof.
  unfold segment. rewrite !andb_true_iff.
  intros Hc [Hbo Hao] [Hbn Han].
  unfold repoPattern.
  change (matchPieces (PLit (lit "github.com") :: ?ps) opened cap ?s)
    with (match strip host s with
          | Some s' => matchPieces ps opened cap s'
          | None => None
          end).
  assert (E1 : strip host (host ++ c :: owner ++ slash ++ name ++ rest)
               = Some (c :: owner ++ slash ++ name ++ rest))
    by (apply strip_spec; reflexivity).
  rewrite E1.
  change (matchPieces (POneOf (lit ":/") :: ?ps) opened cap (c :: ?s2))
    with (if inClass c joints then matchPieces ps opened cap s2 else None).
  rewrite Hc.
  change (matchPieces (POpen :: PManyNot (lit "./") :: ?ps) opened cap ?s2)
    with (plusNot stops (matchPieces ps s2 cap) s2).
  apply plusNot_complete; [exact Hbo | exact Hao|].
  change (matchPieces (PLit (lit "/") :: PManyNot (lit "./") :: ?ps) ?o cap
            (slash ++ ?t2))
    with (match strip slash (slash ++ t2) with
          | Some t2' => plusNot stops (matchPieces ps o cap) t2'
          | None => None
          end).
  assert (E3 : strip slash (slash ++ name ++ rest) = Some (name ++ rest))
    by (apply strip_spec; reflexivity).
  rewrite E3.
  apply plusNot_complete; [exact Hbn | exact Han | apply optGit_total].
Qed.

Lemma String_match1_eq (ps : list piece) (s : jsstring) :
  String_match1 s ps =
  match matchPieces ps [] None s with
  | Some (cap, rest) =>
      Some (firstn (List.length s - List.length rest)%nat s, cap)
  | None =>
      match s with
      | [] => None
      | _ :: s' => String_match1 s' ps
      end
  end.
Proof. destruct s; reflexivity. Qed.

(** The capture of a match is the first repository name in the text. *)
Lemma String_match1_repo (normalized whole : jsstring)
  (group1 : option jsstring) :
  String_match1 normalized repoPattern = Some (whole, group1) ->
  exists pre owner name,
    group1 = Some (owner ++ slash ++ name)
    /\ repoAt normalized pre owner name
    /\ (forall pre' owner' name',
          repoAt normalized pre' owner' name' ->
          (List.length pre <= List.length pre')%nat)
    /\ (forall rest,
          normalized = pre ++ host ++ rest ->
          exists c tail,
            rest = c :: owner ++ slash ++ name ++ tail
            /\ endsRun stops tail = true).
Proof.
  revert whole group1; induction normalized as [|x s IH];
    intros whole group1; rewrite String_match1_eq.
  - destruct (matchPieces repoPattern [] None []) as [[cap rest]|] eqn:Em;
      [|discriminate].
    destruct (matchRepo_sound _ _ _ _ _ Em) as (c & o & n & t & E & _).
    discriminate E.
  - destruct (matchPieces repoPattern [] None (x :: s)) as [[cap rest]|] eqn:Em.
    + intros [= _ <-].
      destruct (matchRepo_sound _ _ _ _ _ Em)
        as (c & owner & name & tail & E & Hc & Ho & Hn & He & ->).
      exists [], owner, name. split; [reflexivity|]. split.
      { exists c, tail. auto. }
      split; [intros; simpl; lia|].
      intros rest0 E0.
      change ([] ++ host ++ rest0) with (host ++ rest0) in E0.
      rewrite E in E0.
      apply app_inv_head in E0. subst rest0. exists c, tail. auto.
    + intros H.
      destruct (IH _ _ H) as (pre & owner & name & -> & Hat & Hfirst & Hend).
      exists (x :: pre), owner, name. split; [reflexivity|]. split.
      { destruct Hat as (c & rest & -> & Hrest). exists c, rest. auto. }
      split.
      * intros pre' owner' name' (c' & rest' & E' & Hc' & Ho' & Hn').
        destruct pre' as [|x' pre'].
        -- exfalso.
           apply (matchRepo_complete [] None c' owner' name' rest' Hc' Ho' Hn').
           change (host ++ c' :: owner' ++ slash ++ name' ++ rest')
             with ([] ++ host ++ c' :: owner' ++ slash ++ name' ++ rest').
           rewrite <- E'. exact Em.
        -- change ((x' :: pre') ++ host ++ c' :: owner' ++ slash ++ name' ++ rest')
             with (x' :: pre' ++ host ++ c' :: owner' ++ slash ++ name' ++ rest')
             in E'.
           injection E' as <- E'.
           assert (Hat' : repoAt s pre' owner' name')
             by (exists c', rest'; auto).
           specialize (Hfirst _ _ _ Hat'). simpl. lia.
      * intros rest0 E0.
        change ((x :: pre) ++ host ++ rest0)
          with (x :: pre ++ host ++ rest0) in E0.
        injection E0 as E0. exact (Hend _ E0).
Qed.

Lemma String_match1_none (normalized : jsstring) :
  String_match1 normalized repoPattern = None <->
  ~ exists pre owner name, repoAt normalized pre owner name.
Proof.
  split.
  - intros Hnone (pre & owner & name & c & rest & -> & Hc & Ho & Hn).
    induction pre as [|x pre IH]; rewrite String_match1_eq in Hnone.
    + pose proof (matchRepo_complete [] None c owner name rest Hc Ho Hn) as Hm.
      change ([] ++ host ++ c :: owner ++ slash ++ name ++ rest)
        with (host ++ c :: owner ++ slash ++ name ++ rest) in Hnone.
      destruct (matchPieces repoPattern [] None _) as [[cap r]|];
        [discriminate|contradiction].
    + change ((x :: pre) ++ host ++ c :: owner ++ slash ++ name ++ rest)
        with (x :: pre ++ host ++ c :: owner ++ slash ++ name ++ rest)
        in Hnone.
      destruct (matchPieces repoPattern [] None _) as [[cap r]|];
        [discriminate|].
      exact (IH Hnone).
  - intros Hno.
    destruct (String_match1 normalized repoPattern) as [[whole g]|] eqn:E;
      [|reflexivity].
    exfalso. apply Hno.
    destruct (String_match1_repo _ _ _ E) as (pre & owner & name & _ & Hat & _).
    exists pre, owner, name. exact Hat.
Qed.

(** *** The functions of [configuration.ts] *)

Section Functions.

Context {Num E : Type}.
Variable env : Env Num E.

Lemma bindE_inr {A B : Type} (m : error E + A) (f : A -> error E + B)
  (b : B) :
  bindE m f = inr b -> exists a, m = inr a /\ f a = inr b.
Proof.
  destruct m as [e|a]; simpl; [discriminate|]. intros H. exists a. auto.
Qed.

Lemma call_inr {A : Type} (r : E + A) (a : A) :
  call r = inr a -> r = inr a.
Proof. destruct r; simpl; congruence. Qed.

(** What [findRepoFromPkg] returns has two segments. *)
Lemma findRepoFromPkg_segments (pkg : value Num) (found : jsstring) :
  findRepoFromPkg env pkg = inr (Some found) ->
  exists owner name,
    found = owner ++ slash ++ name
    /\ segment owner = true /\ segment name = true.
Proof.
  unfold findRepoFromPkg. intros H.
  apply bindE_inr in H. destruct H as (repository & _ & H).
  apply bindE_inr in H. destruct H as (repositoryUrl & _ & H).
  apply bindE_inr in H. destruct H as (normalized & _ & H).
  destruct (String_match1 normalized repoPattern) as [[whole group1]|] eqn:Em;
    [|discriminate].
  injection H as ->.
  destruct (String_match1_repo _ _ _ Em)
    as (pre & owner & name & Hg & (c & rest & _ & _ & Ho & Hn) & _).
  injection Hg as ->. exists owner, name. auto.
Qed.

(** X13.  The repository that [findRepoFromPkg] returns is the first
    [owner/name] that stands behind [github.com] and a colon or slash in the
    normalized URL, where the URL that is normalized is the [url] property
    of the [repository] of the package when that is truthy, and
    [repository] itself otherwise.  Neither part is empty or holds a dot or
    a slash, and the name ends at the first dot or slash or at the end of
    the URL: of a repository name with a dot, what follows the dot is
    lost. *)
Theorem findRepoFromPkg_first_repo (pkg : value Num) (found : jsstring) :
  findRepoFromPkg env pkg = inr (Some found) ->
  exists repository repositoryUrl normalized pre owner name,
    get (E := E) pkg (lit "repository") = inr repository
    /\ get (E := E) repository (lit "url") = inr repositoryUrl
    /\ normalizeUrl env
         (if truthy env repositoryUrl then repositoryUrl else repository)
       = inr normalized
    /\ found = owner ++ slash ++ name
    /\ repoAt normalized pre owner name
    /\ (forall pre' owner' name',
          repoAt normalized pre' owner' name' ->
          (List.length pre <= List.length pre')%nat)
    /\ (forall rest,
          normalized = pre ++ host ++ rest ->
          exists c tail,
            rest = c :: found ++ tail /\ endsRun stops tail = true).
Proof.
  unfold findRepoFromPkg. intros H.
  apply bindE_inr in H. destruct H as (repository & Hr & H).
  apply bindE_inr in H. destruct H as (repositoryUrl & Hu & H).
  apply bindE_inr in H. destruct H as (normalized & Hn & H).
  apply call_inr in Hn.
  destruct (String_match1 normalized repoPattern) as [[whole group1]|] eqn:Em;
    [|discriminate].
  injection H as ->.
  destruct (String_match1_repo _ _ _ Em)
    as (pre & owner & name & Hg & Hat & Hfirst & Hend).
  injection Hg as ->.
  exists repository, repositoryUrl, normalized, pre, owner, name.
  split; [exact Hr|]. split; [exact Hu|]. split; [exact Hn|].
  split; [reflexivity|]. split; [exact Hat|].
  split; [exact Hfirst|].
  intros rest Hrest. destruct (Hend rest Hrest) as (c & tail & -> & He).
  exists c, tail. rewrite <- !app_assoc. auto.
Qed.

(** X14.  [findRepoFromPkg] returns [undefined], and raises nothing,
    exactly when the normalized URL holds no [owner/name] behind
    [github.com] and a colon or slash.  The URL that is normalized is the
    [url] property of [repository] when that is truthy, and [repository]
    itself otherwise. *)
Theorem findRepoFromPkg_undefined
  (pkg repository repositoryUrl : value Num) (normalized : jsstring) :
  get (E := E) pkg (lit "repository") = inr repository ->
  get (E := E) repository (lit "url") = inr repositoryUrl ->
  normalizeUrl env
    (if truthy env repositoryUrl then repositoryUrl else repository)
  = inr normalized ->
  (findRepoFromPkg env pkg = inr None <->
   ~ exists pre owner name, repoAt normalized pre owner name).
Proof.
  intros Hr Hu Hn. unfold findRepoFromPkg.
  rewrite Hr. cbn [bindE]. rewrite Hu. cbn [bindE]. rewrite Hn.
  cbn [bindE call]. rewrite <- String_match1_none.
  destruct (String_match1 normalized repoPattern) as [[whole group1]|] eqn:Em.
  - split; [|discriminate]. intros [= ->].
    destruct (String_match1_repo _ _ _ Em) as (? & ? & ? & Hg & _).
    discriminate Hg.
  - split; reflexivity.
Qed.

Lemma versionTag_v (version : value Num) (tag : option jsstring) :
  versionTag env version = inr tag ->
  exists t, tag = Some (lit "v" ++ t).
Proof.
  unfold versionTag. destruct version as [v|].
  - destruct (toStr env v) as [t|]; [|discriminate].
    intros [= <-]. exists t. reflexivity.
  - intros [= <-]. exists (lit "undefined"). reflexivity.
Qed.

Lemma findNextVersion_v (rootPath found : jsstring) :
  findNextVersion env rootPath = inr (Some found) ->
  exists t, found = lit "v" ++ t.
Proof.
  unfold findNextVersion. intros H.
  apply bindE_inr in H. destruct H as (pkg & _ & H).
  apply bindE_inr in H. destruct H as (lerna & _ & H).
  apply bindE_inr in H. destruct H as (pkgVersion & _ & H).
  destruct (truthy env pkgVersion).
  - destruct (versionTag_v _ _ H) as (t & [= ->]). exists t. reflexivity.
  - apply bindE_inr in H. destruct H as (lernaVersion & _ & H).
    destruct (truthy env lernaVersion); [|discriminate].
    destruct (versionTag_v _ _ H) as (t & [= ->]). exists t. reflexivity.
Qed.

(** What [findNextVersion] reads of a file: its parsed content when the
    file exists, and an empty object otherwise. *)
Lemma metadata_inr (path : jsstring) (parsed : json Num) :
  (if existsSync env path then call (readJSON env path)
   else inr (JObj [])) = inr parsed ->
  if existsSync env path then readJSON env path = inr parsed
  else parsed = JObj [].
Proof.
  destruct (existsSync env path).
  - apply call_inr.
  - intros [= <-]. reflexivity.
Qed.

(** X15.  A version that [findNextVersion] returns is [v] before the
    string of the [version] property of [package.json] when that property
    is truthy, and otherwise of the [version] property of [lerna.json],
    which is then truthy; a file that does not exist counts as an empty
    object, and both files that exist have been read. *)
Theorem findNextVersion_tag (rootPath found : jsstring) :
  findNextVersion env rootPath = inr (Some found) ->
  exists pkg lerna pkgVersion,
    (if existsSync env (path_join env rootPath (lit "package.json"))
     then readJSON env (path_join env rootPath (lit "package.json"))
          = inr pkg
     else pkg = JObj [])
    /\ (if existsSync env (path_join env rootPath (lit "lerna.json"))
        then readJSON env (path_join env rootPath (lit "lerna.json"))
             = inr lerna
        else lerna = JObj [])
    /\ get (E := E) (Some pkg) (lit "version") = inr pkgVersion
    /\ ((truthy env pkgVersion = true
         /\ versionTag env pkgVersion = inr (Some found))
        \/ (truthy env pkgVersion = false
            /\ exists lernaVersion,
                 get (E := E) (Some lerna) (lit "version")
                 = inr lernaVersion
                 /\ truthy env lernaVersion = true
                 /\ versionTag env lernaVersion = inr (Some found)))
    /\ exists t, found = lit "v" ++ t.
Proof.
  intros H. pose proof (findNextVersion_v _ _ H) as Hv.
  unfold findNextVersion in H. cbv zeta in H.
  apply bindE_inr in H. destruct H as (pkg & Hp & H).
  apply bindE_inr in H. destruct H as (lerna & Hl & H).
  apply bindE_inr in H. destruct H as (pkgVersion & Hpv & H).
  apply metadata_inr in Hp. apply metadata_inr in Hl.
  exists pkg, lerna, pkgVersion.
  split; [exact Hp|]. split; [exact Hl|]. split; [exact Hpv|].
  split; [|exact Hv].
  destruct (truthy env pkgVersion) eqn:Tp.
  - left. auto.
  - right. split; [reflexivity|].
    apply bindE_inr in H. destruct H as (lernaVersion & Hlv & H).
    destruct (truthy env lernaVersion) eqn:Tl; [|discriminate].
    exists lernaVersion. auto.
Qed.

(** X16.  [findNextVersion] reads [lerna.json] before it looks at the
    version of [package.json]: when [lerna.json] exists and cannot be read
    or parsed, it fails with that error whatever [package.json] holds,
    provided [package.json] is absent or could be read. *)
Theorem findNextVersion_reads_lerna (rootPath : jsstring) (e : E) :
  existsSync env (path_join env rootPath (lit "lerna.json")) = true ->
  readJSON env (path_join env rootPath (lit "lerna.json")) = inl e ->
  (existsSync env (path_join env rootPath (lit "package.json")) = false
   \/ exists pkg,
        readJSON env (path_join env rootPath (lit "package.json")) = inr pkg) ->
  findNextVersion env rootPath = inl (Thrown e).
Proof.
  intros Hl He Hp. unfold findNextVersion. rewrite Hl, He.
  destruct Hp as [Hp|(pkg & Hp)].
  - rewrite Hp. reflexivity.
  - rewrite Hp.
    destruct (existsSync env (path_join env rootPath (lit "package.json")));
      reflexivity.
Qed.


End Functions.

Section FromPath.

Context {Num E : Type}.
Variable env : Env Num E.

(** The steps of a call of [fromPath] that returns. *)
Lemma fromPath_inr (dir : jsstring) (options : ConfigLoaderOptions)
  (cfg : Configuration Num) :
  fromPath env dir options = inr cfg ->
  exists config repo0 nextVersion0 labels0 cacheDir0 ignoreCommitters0
         ignoreFilePath0 specifiedProjects0,
    chosen env dir config
    /\ get (E := E) config (lit "repo") = inr repo0
    /\ get (E := E) config (lit "nextVersion") = inr nextVersion0
    /\ get (E := E) config (lit "labels") = inr labels0
    /\ get (E := E) config (lit "cacheDir") = inr cacheDir0
    /\ get (E := E) config (lit "ignoreCommitters") = inr ignoreCommitters0
    /\ get (E := E) config (lit "ignoreFilePath") = inr ignoreFilePath0
    /\ get (E := E) config (lit "specifiedProjects") = inr specifiedProjects0
    /\ (if truthy env repo0 then repo cfg = repo0
        else exists found,
               findRepo env dir = inr (Some found)
               /\ Boolean found = true
               /\ repo cfg = Some (JStr found))
    /\ ((optNextVersionFromMetadata options = Some true
         \/ exists flag,
              get (E := E) config (lit "nextVersionFromMetadata") = inr flag
              /\ truthy env flag = true) ->
        exists found,
          findNextVersion env dir = inr (Some found)
          /\ nextVersion cfg = Some (JStr found))
    /\ (optNextVersionFromMetadata options <> Some true ->
        (forall flag,
           get (E := E) config (lit "nextVersionFromMetadata") = inr flag ->
           truthy env flag = false) ->
        nextVersion cfg = nextVersion0)
    /\ rootPath cfg = dir
    /\ labels cfg = (if truthy env labels0 then labels0
                     else Some defaultLabels)
    /\ ignoreCommitters cfg = (if truthy env ignoreCommitters0
                               then ignoreCommitters0
                               else Some defaultIgnoreCommitters)
    /\ cacheDir cfg = cacheDir0
    /\ ignoreFilePath cfg = (if truthy env ignoreFilePath0
                             then ignoreFilePath0 else Some (JArr []))
    /\ specifiedProjects cfg = (if truthy env specifiedProjects0
                                then specifiedProjects0 else Some (JArr [])).
Proof.
  unfold fromPath. intros H.
  apply bindE_inr in H. destruct H as (fromPackage & Hpk & H).
  apply bindE_inr in H. destruct H as (fromFiles & Hff & H).
  cbv zeta in H.
  set (config := if truthy env fromFiles then fromFiles else Some (JObj []))
    in *.
  assert (Hchosen : chosen env dir config).
  { unfold chosen, config. destruct (truthy env fromPackage) eqn:Tp.
    - injection Hff as <-. rewrite Tp. left. auto.
    - right. destruct (truthy env fromFiles) eqn:Tf.
      + left. exists fromPackage. auto.
      + right. exists fromPackage, fromFiles. auto. }
  apply bindE_inr in H. destruct H as (repo0 & G1 & H).
  apply bindE_inr in H. destruct H as (nextVersion0 & G2 & H).
  apply bindE_inr in H. destruct H as (labels0 & G3 & H).
  apply bindE_inr in H. destruct H as (cacheDir0 & G4 & H).
  apply bindE_inr in H. destruct H as (ignoreCommitters0 & G5 & H).
  apply bindE_inr in H. destruct H as (ignoreFilePath0 & G6 & H).
  apply bindE_inr in H. destruct H as (specifiedProjects0 & G7 & H).
  apply bindE_inr in H. destruct H as (repo1 & Hrepo & H).
  apply bindE_inr in H. destruct H as (fromMetadata & Hflag & H).
  apply bindE_inr in H. destruct H as (nextVersion1 & Hnv & H).
  injection H as <-. cbn [repo nextVersion rootPath labels ignoreCommitters
                          cacheDir ignoreFilePath specifiedProjects].
  exists config, repo0, nextVersion0, labels0, cacheDir0, ignoreCommitters0,
    ignoreFilePath0, specifiedProjects0.
  repeat (split; [assumption|]).
  split.
  { destruct (truthy env repo0); cbn [negb] in Hrepo.
    - injection Hrepo as <-. reflexivity.
    - apply bindE_inr in Hrepo. destruct Hrepo as (found & Hf & Hrepo).
      destruct found as [found|]; cbn [option_map truthy negb] in Hrepo;
        [|discriminate].
      destruct (Boolean found) eqn:Hb; cbn [negb] in Hrepo; [|discriminate].
      injection Hrepo as <-. exists found. auto. }
  assert (Hfound : fromMetadata = true ->
            exists found,
              findNextVersion env dir = inr (Some found)
              /\ nextVersion1 = Some (JStr found)).
  { intros ->. apply bindE_inr in Hnv. destruct Hnv as (found & Hf & Hnv).
    destruct found as [found|]; cbn [option_map truthy negb] in Hnv;
      [|discriminate].
    destruct (Boolean found); cbn [negb] in Hnv; [|discriminate].
    injection Hnv as <-. exists found. auto. }
  split.
  { intros Hon. apply Hfound.
    destruct (optNextVersionFromMetadata options) as [[|]|] eqn:Eo.
    - injection Hflag as <-. reflexivity.
    - destruct Hon as [Hon|(flag & Hg & Ht)]; [discriminate|].
      rewrite Hg in Hflag. cbn [bindE] in Hflag. congruence.
    - destruct Hon as [Hon|(flag & Hg & Ht)]; [discriminate|].
      rewrite Hg in Hflag. cbn [bindE] in Hflag. congruence. }
  split.
  { intros Hoff Hflagoff.
    assert (Hm : fromMetadata = false).
    { destruct (optNextVersionFromMetadata options) as [[|]|] eqn:Eo.
      - contradiction.
      - apply bindE_inr in Hflag. destruct Hflag as (flag & Hg & Hflag).
        injection Hflag as <-. exact (Hflagoff _ Hg).
      - apply bindE_inr in Hflag. destruct Hflag as (flag & Hg & Hflag).
        injection Hflag as <-. exact (Hflagoff _ Hg). }
    rewrite Hm in Hnv. injection Hnv as <-. reflexivity. }
  split; [reflexivity|].
  split; [destruct (truthy env labels0); reflexivity|].
  split; [destruct (truthy env ignoreCommitters0); reflexivity|].
  split; [reflexivity|].
  split; [destruct (truthy env ignoreFilePath0); reflexivity|].
  destruct (truthy env specifiedProjects0); reflexivity.
Qed.

(** X18.  A configuration that [fromPath] returns is complete: its [repo],
    [labels], [ignoreCommitters], [ignoreFilePath] and [specifiedProjects]
    are truthy, whatever the files hold, and its [rootPath] is the one
    given. *)
Theorem fromPath_complete (dir : jsstring) (options : ConfigLoaderOptions)
  (cfg : Configuration Num) :
  fromPath env dir options = inr cfg ->
  truthy env (repo cfg) = true
  /\ truthy env (labels cfg) = true
  /\ truthy env (ignoreCommitters cfg) = true
  /\ truthy env (ignoreFilePath cfg) = true
  /\ truthy env (specifiedProjects cfg) = true
  /\ rootPath cfg = dir.
Proof.
  intros H. destruct (fromPath_inr _ _ _ H)
    as (config & repo0 & nv0 & labels0 & cache0 & ic0 & ifp0 & sp0
        & _ & _ & _ & _ & _ & _ & _ & _ & Hrepo & _ & _ & Hroot & Hl & Hic
        & _ & Hifp & Hsp).
  split.
  { destruct (truthy env repo0) eqn:T.
    - rewrite Hrepo. exact T.
    - destruct Hrepo as (found & _ & Hb & ->). exact Hb. }
  split; [rewrite Hl; destruct (truthy env labels0) eqn:T; auto|].
  split; [rewrite Hic; destruct (truthy env ic0) eqn:T; auto|].
  split; [rewrite Hifp; destruct (truthy env ifp0) eqn:T; auto|].
  split; [rewrite Hsp; destruct (truthy env sp0) eqn:T; auto|].
  exact Hroot.
Qed.

(** X19.  The settings of a returned configuration come from one
    [changelog] entry, never from two: that of [package.json] when it is
    truthy, otherwise that of [lerna.json].  A setting of that entry that is
    missing or falsy is replaced by its default as a whole; nothing is
    merged with the defaults or with the other file. *)
Theorem fromPath_settings (dir : jsstring) (options : ConfigLoaderOptions)
  (cfg : Configuration Num) :
  fromPath env dir options = inr cfg ->
  exists config,
    chosen env dir config
    /\ setting env config (lit "labels") (Some defaultLabels) (labels cfg)
    /\ setting env config (lit "ignoreCommitters")
         (Some defaultIgnoreCommitters) (ignoreCommitters cfg)
    /\ setting env config (lit "ignoreFilePath") (Some (JArr []))
         (ignoreFilePath cfg)
    /\ setting env config (lit "specifiedProjects") (Some (JArr []))
         (specifiedProjects cfg)
    /\ get (E := E) config (lit "cacheDir") = inr (cacheDir cfg).
Proof.
  intros H. destruct (fromPath_inr _ _ _ H)
    as (config & repo0 & nv0 & labels0 & cache0 & ic0 & ifp0 & sp0
        & Hc & _ & _ & G3 & G4 & G5 & G6 & G7 & _ & _ & _ & _ & Hl & Hic
        & Hcd & Hifp & Hsp).
  exists config. split; [exact Hc|].
  split; [exists labels0; auto|]. split; [exists ic0; auto|].
  split; [exists ifp0; auto|]. split; [exists sp0; auto|].
  rewrite Hcd. exact G4.
Qed.

(** X20.  In a directory with neither [package.json] nor [lerna.json],
    [fromPath] fails with the [ConfigurationError] about [repo], whatever
    the options. *)
Theorem fromPath_no_files (dir : jsstring) (options : ConfigLoaderOptions) :
  existsSync env (path_join env dir (lit "package.json")) = false ->
  existsSync env (path_join env dir (lit "lerna.json")) = false ->
  fromPath env dir options = inl (ConfigurationError repoMessage).
Proof.
  intros Hp Hl. unfold fromPath, fromPackageConfig, fromLernaConfig, findRepo.
  cbv zeta. rewrite Hp, Hl. reflexivity.
Qed.

(** X21.  When the option [nextVersionFromMetadata] is set, the version of
    a returned configuration is the one [findNextVersion] infers from the
    files, a string that starts with [v]; a [nextVersion] of the
    [changelog] entry is not used. *)
Theorem fromPath_version_from_metadata (dir : jsstring)
  (options : ConfigLoaderOptions) (cfg : Configuration Num) :
  optNextVersionFromMetadata options = Some true ->
  fromPath env dir options = inr cfg ->
  exists t,
    findNextVersion env dir = inr (Some (lit "v" ++ t))
    /\ nextVersion cfg = Some (JStr (lit "v" ++ t)).
Proof.
  intros Ho H. destruct (fromPath_inr _ _ _ H)
    as (config & repo0 & nv0 & labels0 & cache0 & ic0 & ifp0 & sp0
        & _ & _ & _ & _ & _ & _ & _ & _ & _ & Hon & _).
  destruct (Hon (or_introl Ho)) as (found & Hf & Hnv).
  destruct (findNextVersion_v env _ _ Hf) as (t & ->).
  exists t. auto.
Qed.

(** X22.  When the [changelog] entry names no [repo], the [repo] of a
    returned configuration is inferred from [package.json]: it is what
    [findRepo] finds there, a name [owner/name] of two segments without dot
    and slash. *)
Theorem fromPath_repo_inferred (dir : jsstring)
  (options : ConfigLoaderOptions) (cfg : Configuration Num)
  (config repo0 : value Num) :
  fromPath env dir options = inr cfg ->
  chosen env dir config ->
  get (E := E) config (lit "repo") = inr repo0 ->
  truthy env repo0 = false ->
  exists owner name,
    findRepo env dir = inr (Some (owner ++ slash ++ name))
    /\ repo cfg = Some (JStr (owner ++ slash ++ name))
    /\ segment owner = true /\ segment name = true.
Proof.
  intros H Hc Hg Ht. destruct (fromPath_inr _ _ _ H)
    as (config' & repo0' & nv0 & labels0 & cache0 & ic0 & ifp0 & sp0
        & Hc' & Hg' & _ & _ & _ & _ & _ & _ & Hrepo & _).
  assert (config' = config).
  { unfold chosen in Hc, Hc'.
    destruct Hc as [[Hp T]|[(c & Hp & T & Hl & Tl)|(c & c2 & Hp & T & Hl & Tl & ->)]];
      destruct Hc' as [[Hp' T']|[(c' & Hp' & T' & Hl' & Tl')
                      |(c' & c2' & Hp' & T' & Hl' & Tl' & ->)]];
      congruence. }
  subst config'. rewrite Hg in Hg'. injection Hg' as <-.
  rewrite Ht in Hrepo. destruct Hrepo as (found & Hf & _ & Hr).
  assert (Hpkg : exists pkg, findRepoFromPkg env pkg = inr (Some found)).
  { unfold findRepo in Hf. cbv zeta in Hf.
    destruct (negb (existsSync env _)); [discriminate|].
    apply bindE_inr in Hf. destruct Hf as (pkg & _ & Hf).
    apply bindE_inr in Hf. destruct Hf as (repository & _ & Hf).
    destruct (negb (truthy env repository)); [discriminate|].
    exists (Some pkg). exact Hf. }
  destruct Hpkg as (pkg & Hpkg).
  destruct (findRepoFromPkg_segments env _ _ Hpkg)
    as (owner & name & -> & Ho & Hn).
  exists owner, name. auto.
Qed.

End FromPath.

(** *** The functions at work on the sample files *)

Lemma findRepoFromPkg_first_repo_witness :
  findRepoFromPkg bothFiles (Some samplePkg) = inr (Some sampleRepo)
  /\ exists repository repositoryUrl normalized pre owner name,
       get (E := jsstring) (Some samplePkg) (lit "repository")
       = inr repository
       /\ get (E := jsstring) repository (lit "url") = inr repositoryUrl
       /\ normalizeUrl bothFiles
            (if truthy bothFiles repositoryUrl then repositoryUrl
             else repository)
          = inr normalized
       /\ sampleRepo = owner ++ slash ++ name
       /\ repoAt normalized pre owner name
       /\ (forall pre' owner' name',
             repoAt normalized pre' owner' name' ->
             (List.length pre <= List.length pre')%nat)
       /\ (forall rest,
             normalized = pre ++ host ++ rest ->
             exists c tail,
               rest = c :: sampleRepo ++ tail /\ endsRun stops tail = true).
Proof.
  assert (H : findRepoFromPkg bothFiles (Some samplePkg)
              = inr (Some sampleRepo)) by reflexivity.
  split; [exact H|].
  exact (findRepoFromPkg_first_repo bothFiles (Some samplePkg) sampleRepo H).
Defined.

Lemma findRepoFromPkg_undefined_witness :
  get (E := jsstring) (Some elsewherePkg) (lit "repository")
  = inr (Some (JStr elsewhereUrl))
  /\ get (E := jsstring) (Some (JStr elsewhereUrl : json N)) (lit "url")
     = inr None
  /\ normalizeUrl bothFiles
       (if truthy bothFiles None then None else Some (JStr elsewhereUrl))
     = inr elsewhereUrl
  /\ (findRepoFromPkg bothFiles (Some elsewherePkg) = inr None <->
      ~ exists pre owner name, repoAt elsewhereUrl pre owner name).
Proof.
  assert (H1 : get (E := jsstring) (Some elsewherePkg) (lit "repository")
               = inr (Some (JStr elsewhereUrl))) by reflexivity.
  assert (H2 : get (E := jsstring) (Some (JStr elsewhereUrl : json N))
                 (lit "url") = inr None) by reflexivity.
  assert (H3 : normalizeUrl bothFiles
                 (if truthy bothFiles None then None
                  else Some (JStr elsewhereUrl)) = inr elsewhereUrl)
    by reflexivity.
  split; [exact H1|]. split; [exact H2|]. split; [exact H3|].
  exact (findRepoFromPkg_undefined bothFiles (Some elsewherePkg)
           (Some (JStr elsewhereUrl)) None elsewhereUrl H1 H2 H3).
Defined.

Lemma findNextVersion_tag_witness :
  findNextVersion bothFiles root = inr (Some (lit "v1.2.0"))
  /\ exists pkg lerna pkgVersion,
       (if existsSync bothFiles (path_join bothFiles root (lit "package.json"))
        then readJSON bothFiles
               (path_join bothFiles root (lit "package.json"))
             = inr pkg
        else pkg = JObj [])
       /\ (if existsSync bothFiles
                (path_join bothFiles root (lit "lerna.json"))
           then readJSON bothFiles
                  (path_join bothFiles root (lit "lerna.json"))
                = inr lerna
           else lerna = JObj [])
       /\ get (E := jsstring) (Some pkg) (lit "version") = inr pkgVersion
       /\ ((truthy bothFiles pkgVersion = true
            /\ versionTag bothFiles pkgVersion
               = inr (Some (lit "v1.2.0")))
           \/ (truthy bothFiles pkgVersion = false
               /\ exists lernaVersion,
                    get (E := jsstring) (Some lerna) (lit "version")
                    = inr lernaVersion
                    /\ truthy bothFiles lernaVersion = true
                    /\ versionTag bothFiles lernaVersion
                       = inr (Some (lit "v1.2.0"))))
       /\ exists t, lit "v1.2.0" = lit "v" ++ t.
Proof.
  assert (H : findNextVersion bothFiles root = inr (Some (lit "v1.2.0")))
    by reflexivity.
  split; [exact H|].
  exact (findNextVersion_tag bothFiles root (lit "v1.2.0") H).
Defined.

Lemma findNextVersion_reads_lerna_witness :
  existsSync brokenLerna (path_join brokenLerna root (lit "lerna.json"))
  = true
  /\ readJSON brokenLerna (path_join brokenLerna root (lit "lerna.json"))
     = inl (lit "Unexpected token")
  /\ findNextVersion brokenLerna root
     = inl (Thrown (lit "Unexpected token")).
Proof.
  split; [reflexivity|]. split; [reflexivity|].
  apply (findNextVersion_reads_lerna brokenLerna root (lit "Unexpected token"));
    [reflexivity | reflexivity |].
  right. exists samplePkg. reflexivity.
Defined.


Lemma fromPath_complete_witness :
  exists cfg,
    fromPath bothFiles root (mkOptions None) = inr cfg
    /\ truthy bothFiles (repo cfg) = true
    /\ truthy bothFiles (labels cfg) = true
    /\ truthy bothFiles (ignoreCommitters cfg) = true
    /\ truthy bothFiles (ignoreFilePath cfg) = true
    /\ truthy bothFiles (specifiedProjects cfg) = true
    /\ rootPath cfg = root.
Proof.
  assert (H : exists cfg, fromPath bothFiles root (mkOptions None) = inr cfg)
    by (eexists; reflexivity).
  destruct H as (cfg & H). exists cfg. split; [exact H|].
  exact (fromPath_complete bothFiles root (mkOptions None) cfg H).
Defined.

Lemma fromPath_settings_witness :
  exists cfg,
    fromPath bothFiles root (mkOptions None) = inr cfg
    /\ exists config,
         chosen bothFiles root config
         /\ setting bothFiles config (lit "labels") (Some defaultLabels)
              (labels cfg)
         /\ setting bothFiles config (lit "ignoreCommitters")
              (Some defaultIgnoreCommitters) (ignoreCommitters cfg)
         /\ setting bothFiles config (lit "ignoreFilePath") (Some (JArr []))
              (ignoreFilePath cfg)
         /\ setting bothFiles config (lit "specifiedProjects")
              (Some (JArr [])) (specifiedProjects cfg)
         /\ get (E := jsstring) config (lit "cacheDir") = inr (cacheDir cfg).
Proof.
  assert (H : exists cfg, fromPath bothFiles root (mkOptions None) = inr cfg)
    by (eexists; reflexivity).
  destruct H as (cfg & H). exists cfg. split; [exact H|].
  exact (fromPath_settings bothFiles root (mkOptions None) cfg H).
Defined.

Lemma fromPath_no_files_witness :
  existsSync (files None None)
    (path_join (files None None) root (lit "package.json")) = false
  /\ existsSync (files None None)
       (path_join (files None None) root (lit "lerna.json")) = false
  /\ fromPath (files None None) root (mkOptions (Some true))
     = inl (ConfigurationError repoMessage).
Proof.
  split; [reflexivity|]. split; [reflexivity|].
  exact (fromPath_no_files (files None None) root (mkOptions (Some true))
           eq_refl eq_refl).
Defined.

Lemma fromPath_version_from_metadata_witness :
  exists cfg,
    optNextVersionFromMetadata (mkOptions (Some true)) = Some true
    /\ fromPath bothFiles root (mkOptions (Some true)) = inr cfg
    /\ exists t,
         findNextVersion bothFiles root = inr (Some (lit "v" ++ t))
         /\ nextVersion cfg = Some (JStr (lit "v" ++ t)).
Proof.
  assert (H : exists cfg,
             fromPath bothFiles root (mkOptions (Some true)) = inr cfg)
    by (eexists; reflexivity).
  destruct H as (cfg & H). exists cfg.
  split; [reflexivity|]. split; [exact H|].
  exact (fromPath_version_from_metadata bothFiles root (mkOptions (Some true))
           cfg eq_refl H).
Defined.

Lemma fromPath_repo_inferred_witness :
  exists cfg,
    fromPath bothFiles root (mkOptions None) = inr cfg
    /\ chosen bothFiles root (Some sampleChangelog)
    /\ get (E := jsstring) (Some sampleChangelog) (lit "repo") = inr None
    /\ truthy bothFiles None = false
    /\ exists owner name,
         findRepo bothFiles root = inr (Some (owner ++ slash ++ name))
         /\ repo cfg = Some (JStr (owner ++ slash ++ name))
         /\ segment owner = true /\ segment name = true.
Proof.
  assert (H : exists cfg, fromPath bothFiles root (mkOptions None) = inr cfg)
    by (eexists; reflexivity).
  destruct H as (cfg & H). exists cfg.
  assert (Hc : chosen bothFiles root (Some sampleChangelog))
    by (left; split; reflexivity).
  split; [exact H|]. split; [exact Hc|]. split; [reflexivity|].
  split; [reflexivity|].
  exact (fromPath_repo_inferred bothFiles root (mkOptions None) cfg
           (Some sampleChangelog) None H Hc eq_refl eq_refl).
Defined.

End ConfigFacts.
